(** * State synchronisation of the city game: server simulator, occupancy
    arbiter, client reconciliation and remote interpolation.

    Sources embedded here:
    - [api/socket/index.js]: [simulatePhysics], [gameLoop] and the socket
      handlers ([connection], [clientInput], [clientAction], [disconnect]);
    - the client networking class ([Networking.handleSnapshot],
      [Networking.interpolateRemoteStates], [Networking.sendInput]).

    Numbers.  JavaScript numbers are IEEE doubles; they are idealised here as
    real numbers, so [Math.sin], [Math.cos] and [Math.sqrt] are the real
    functions and rounding and overflow are outside the model.  The two
    divisions whose divisor is a run-time value ([distance / deltaTime] on the
    server, [(renderTime - t1) / range] on the client) keep JavaScript's
    behaviour at a zero divisor through [Js.div].  Sequence numbers are
    integers.  A property that can be [undefined] or [null] is an [option]. *)

From Stdlib Require Import Reals Lra ZArith.
From stdpp Require Import gmap strings list fin_maps sorting.

Local Open Scope R_scope.

(** ** JavaScript values *)

Module Js.

(** [x > y], [x < y], [x <= y], [x >= y] on numbers. *)
Definition gtb (x y : R) : bool := if Rgt_dec x y then true else false.
Definition ltb (x y : R) : bool := if Rlt_dec x y then true else false.
Definition leb (x y : R) : bool := if Rle_dec x y then true else false.
Definition geb (x y : R) : bool := if Rge_dec x y then true else false.

(** [Math.sign]. *)
Definition sign (x : R) : R :=
  if Rlt_dec 0 x then 1 else if Rlt_dec x 0 then -1 else 0.

(** The result of [x / y] for finite [x] and [y]: a number when [y] is not
    zero, an infinity when only [y] is zero, [NaN] for [0 / 0]. *)
Inductive quot : Type :=
| Finite (q : R)
| PosInf
| NegInf
| NaN.

Definition div (x y : R) : quot :=
  if Req_dec_T y 0 then
    if Req_dec_T x 0 then NaN
    else if Rlt_dec 0 x then PosInf else NegInf
  else Finite (x / y).

(** [q > c] for a finite [c]; every comparison with [NaN] is false. *)
Definition quot_gtb (q : quot) (c : R) : bool :=
  match q with
  | Finite r => gtb r c
  | PosInf => true
  | NegInf => false
  | NaN => false
  end.

(** Truthiness of a string-or-null property (socket ids, [dId]). *)
Definition truthy_str (o : option string) : bool :=
  match o with
  | Some s => negb (String.eqb s "")
  | None => false
  end.

(** Truthiness of a number-or-undefined property. *)
Definition truthy_num (o : option Z) : bool :=
  match o with
  | Some n => negb (n =? 0)%Z
  | None => false
  end.

(** [a > b + k] on possibly undefined integers ([undefined] compares as
    [NaN]). *)
Definition gt_plus (a b : option Z) (k : Z) : bool :=
  match a, b with
  | Some x, Some y => (y + k <? x)%Z
  | _, _ => false
  end.

(** [a <= b] on possibly undefined integers. *)
Definition le_opt (a b : option Z) : bool :=
  match a, b with
  | Some x, Some y => (x <=? y)%Z
  | _, _ => false
  end.

(** The property key an id-or-null value is converted to in [obj[v]]. *)
Definition key (o : option string) : string := default "null" o.

End Js.

(** ** Entity state (server) *)

Module Vec3.
Record t : Type := mk { x : R; y : R; z : R }.
End Vec3.

(** [lastP: { x, z }], the last accepted horizontal position. *)
Module LastP.
Record t : Type := mk { x : R; z : R }.
End LastP.

(** An input packet as the server reads it.  [sendInput] fills [sequence] and
    [deltaTime]; the neutral input synthesised for an idle driver has
    neither. *)
Module Input.
Record t : Type := mk {
  forward : bool;
  backward : bool;
  left : bool;
  right : bool;
  jump : bool;
  shift : bool;
  sequence : option Z;
  deltaTime : option R
}.

(** [{ forward: false, backward: false, left: false, right: false }] *)
Definition neutral : t := mk false false false false false false None None.
End Input.

Module Player.
Record t : Type := mk {
  p : Vec3.t;
  lastP : LastP.t;
  v : Vec3.t;
  y : R;
  h : R;
  d : bool;
  vId : option string;
  pInputs : list Input.t;
  lastProcessedInput : option Z
}.

Definition set_pInputs (q : list Input.t) (pl : t) : t :=
  mk (p pl) (lastP pl) (v pl) (y pl) (h pl) (d pl) (vId pl) q
     (lastProcessedInput pl).

Definition set_p (p' : Vec3.t) (pl : t) : t :=
  mk p' (lastP pl) (v pl) (y pl) (h pl) (d pl) (vId pl) (pInputs pl)
     (lastProcessedInput pl).

Definition set_driving (d' : bool) (vId' : option string) (pl : t) : t :=
  mk (p pl) (lastP pl) (v pl) (y pl) (h pl) d' vId' (pInputs pl)
     (lastProcessedInput pl).
End Player.

Module Car.
Record t : Type := mk {
  id : string;
  p : Vec3.t;
  y : R;
  s : R;
  dId : option string;
  pInputs : list Input.t;
  lastProcessedInput : option Z
}.

Definition set_dId (o : option string) (c : t) : t :=
  mk (id c) (p c) (y c) (s c) o (pInputs c) (lastProcessedInput c).
End Car.

(** The in-memory [state] object: [players], [cars] and the member set of the
    single room. *)
Module State.
Record t : Type := mk {
  players : gmap string Player.t;
  cars : gmap string Car.t;
  room : gset string
}.

Definition set_players (ps : gmap string Player.t) (st : t) : t :=
  mk ps (cars st) (room st).

Definition set_cars (cs : gmap string Car.t) (st : t) : t :=
  mk (players st) cs (room st).
End State.

Definition MAX_PLAYER_SPEED : R := 10.5.
Definition MAX_CAR_SPEED : R := 61.
Definition ROOM_ID : string := "main_city".

(** [state] as the module initialises it: no player, the one car [car1]. *)
Definition car1 : Car.t :=
  Car.mk "car1" (Vec3.mk 50 0.75 50) 0 0 None [] (Some 0%Z).

Definition initialState : State.t :=
  State.mk ∅ {[ "car1" := car1 ]} ∅.

(** ** Authoritative simulator: [simulatePhysics] *)

(** Lines 50-69: the position after the movement of one input and the ground
    rule, before the sanity check. *)
Definition movePlayer (deltaTime : R) (input : Input.t) (player : Player.t)
  : Vec3.t :=
  let speed := MAX_PLAYER_SPEED * (if Input.shift input then 2 else 1) in
  let mz := 0 in
  let mx := 0 in
  let mz := if Input.forward input then mz - speed else mz in
  let mz := if Input.backward input then mz + speed else mz in
  let mx := if Input.left input then mx - speed else mx in
  let mx := if Input.right input then mx + speed else mx in
  let sinYaw := sin (Player.y player) in
  let cosYaw := cos (Player.y player) in
  let moveX := mx * cosYaw - mz * sinYaw in
  let moveZ := mx * sinYaw + mz * cosYaw in
  let px := Vec3.x (Player.p player) + moveX * deltaTime * 0.1 in
  let pz := Vec3.z (Player.p player) + moveZ * deltaTime * 0.1 in
  let py := Vec3.y (Player.p player) in
  let py := if Js.gtb py 0 then py + -30 * deltaTime else py in
  let py := if Js.ltb py 0 then 0 else py in
  Vec3.mk px py pz.

(** Lines 72-76: [distance / deltaTime > MAX_PLAYER_SPEED * 2]. *)
Definition antiTeleport (deltaTime : R) (lastP : LastP.t) (p : Vec3.t)
  : bool :=
  let deltaX := Vec3.x p - LastP.x lastP in
  let deltaZ := Vec3.z p - LastP.z lastP in
  let distance := sqrt (deltaX * deltaX + deltaZ * deltaZ) in
  Js.quot_gtb (Js.div distance deltaTime) (MAX_PLAYER_SPEED * 2).

(** The body of the [while] loop for one shifted [input] (lines 46-87).  The
    console warning of the sanity check is no part of the state and is left
    out. *)
Definition applyInput (deltaTime : R) (input : Input.t) (player : Player.t)
  : Player.t :=
  let p1 := movePlayer deltaTime input player in
  let p2 :=
    if antiTeleport deltaTime (Player.lastP player) p1
    then Vec3.mk (LastP.x (Player.lastP player)) (Vec3.y p1)
                 (LastP.z (Player.lastP player))
    else p1 in
  Player.mk p2 (LastP.mk (Vec3.x p2) (Vec3.z p2)) (Player.v player)
            (Player.y player) (Player.h player) (Player.d player)
            (Player.vId player) (Player.pInputs player)
            (Input.sequence input).

(** [while (player.pInputs.length > 0) { const input = player.pInputs.shift();
    ... }]: the queue is [q]; each round shifts its head and runs the body on
    the player holding the rest. *)
Fixpoint processInputs (deltaTime : R) (q : list Input.t) (player : Player.t)
  : Player.t :=
  match q with
  | [] => Player.set_pInputs [] player
  | input :: rest =>
      processInputs deltaTime rest
        (applyInput deltaTime input (Player.set_pInputs rest player))
  end.

(** One iteration of the player loop: a driving player is skipped. *)
Definition playerTick (deltaTime : R) (player : Player.t) : Player.t :=
  if Player.d player then player
  else processInputs deltaTime (Player.pInputs player) player.

(** Lines 105-141: one step of the car with the chosen [input]. *)
Definition driveCar (deltaTime : R) (input : Input.t) (car : Car.t) : Car.t :=
  let gasInput := 0 in
  let gasInput := if Input.forward input then 1 else gasInput in
  let gasInput := if Input.backward input then -1 else gasInput in
  let MAX_ENGINE_FORCE := 15000 in
  let CAR_MASS := 1000 in
  let CAR_LENGTH := 4.5 in
  let MAX_STEER_ANGLE := 0.6 in
  let totalForce := gasInput * MAX_ENGINE_FORCE in
  let resistance := Car.s car * 0.5 * Car.s car * 0.1 in
  let totalForce := totalForce - Js.sign (Car.s car) * resistance in
  let acceleration := totalForce / CAR_MASS in
  let s := Car.s car + acceleration * deltaTime in
  let s := Rmin (Rmax s (- MAX_CAR_SPEED)) MAX_CAR_SPEED in
  let steerInput :=
    (if Input.left input then 1 else 0) + (if Input.right input then -1 else 0) in
  let steeringAngle := steerInput * MAX_STEER_ANGLE in
  let y :=
    if Js.gtb (Rabs s) 0.5
    then Car.y car + steeringAngle * s / CAR_LENGTH * 0.5 * deltaTime
    else Car.y car in
  let directionX := sin y in
  let directionZ := cos y in
  let px := Vec3.x (Car.p car) + directionX * s * deltaTime in
  let pz := Vec3.z (Car.p car) + directionZ * s * deltaTime in
  Car.mk (Car.id car) (Vec3.mk px 0.75 pz) y s (Car.dId car)
         (Car.pInputs car) (Input.sequence input).

(** One iteration of the car loop for the key [carId] (lines 93-141). *)
Definition carStep (deltaTime : R) (carId : string) (st : State.t)
  : State.t :=
  match State.cars st !! carId with
  | None => st
  | Some car =>
      if negb (Js.truthy_str (Car.dId car)) then st
      else
        match State.players st !! Js.key (Car.dId car) with
        | None =>
            State.set_cars (<[carId := Car.set_dId None car]> (State.cars st)) st
        | Some driver =>
            let input := default Input.neutral (head (Player.pInputs driver)) in
            let driver' := Player.set_pInputs (tail (Player.pInputs driver)) driver in
            State.mk (<[Js.key (Car.dId car) := driver']> (State.players st))
                     (<[carId := driveCar deltaTime input car]> (State.cars st))
                     (State.room st)
        end
  end.

(** [for (const carId in state.cars)]: the keys are those present when the
    loop starts.  The server has the one car [car1]; among several cars the
    order would be that of [elements]. *)
Definition carPhase (deltaTime : R) (st : State.t) : State.t :=
  foldl (fun acc carId => carStep deltaTime carId acc)
        st (elements (dom (State.cars st))).

(** [for (const playerId in state.players)]: each iteration touches its own
    player only. *)
Definition playerPhase (deltaTime : R) (st : State.t) : State.t :=
  State.set_players (playerTick deltaTime <$> State.players st) st.

Definition simulatePhysics (deltaTime : R) (st : State.t) : State.t :=
  carPhase deltaTime (playerPhase deltaTime st).

(** ** Snapshot broadcast: [gameLoop] *)

Module PlayerView.
Record t : Type := mk {
  p : Vec3.t;
  y : R;
  h : R;
  d : bool;
  vId : option string;
  lastProcessedInput : option Z
}.
End PlayerView.

Module CarView.
Record t : Type := mk {
  p : Vec3.t;
  y : R;
  s : R;
  dId : option string
}.
End CarView.

(** The [gameSnapshot] message.  [lastProcessedInput] is the top-level
    property [snapshot.lastProcessedInput] that the client reads; an object
    without that property has [None] there. *)
Module Snapshot.
Record t : Type := mk {
  players : gmap string PlayerView.t;
  cars : gmap string CarView.t;
  timestamp : R;
  lastProcessedInput : option Z
}.
End Snapshot.

Definition viewPlayer (player : Player.t) : PlayerView.t :=
  PlayerView.mk (Player.p player) (Player.y player) (Player.h player)
                (Player.d player) (Player.vId player)
                (Player.lastProcessedInput player).

Definition viewCar (car : Car.t) : CarView.t :=
  CarView.mk (Car.p car) (Car.y car) (Car.s car) (Car.dId car).

(** Lines 159-187: the object literal has the three properties [players],
    [cars] and [timestamp] and no other. *)
Definition makeSnapshot (dateNow : R) (st : State.t) : Snapshot.t :=
  Snapshot.mk (viewPlayer <$> State.players st) (viewCar <$> State.cars st)
              dateNow None.

(** The server module's variables: [state] and [lastTick]. *)
Module Server.
Record t : Type := mk { state : State.t; lastTick : R }.
End Server.

(** [gameLoop], with the readings of [performance.now()] and [Date.now()] as
    arguments; the result is the new server and the snapshot it emits. *)
Definition gameLoop (now dateNow : R) (srv : Server.t)
  : Server.t * Snapshot.t :=
  let deltaTime := (now - Server.lastTick srv) / 1000 in
  let st := simulatePhysics deltaTime (Server.state srv) in
  (Server.mk st now, makeSnapshot dateNow st).

(** ** Socket handlers *)

(** What a handler lets out besides the state change. *)
Inductive Output : Type :=
| Warn (msg : string)
| EmitMissionComplete (title : string) (playerId : string).

Inductive Action : Type :=
| EnterVehicle (vehicleId : string)
| ExitVehicle
| CompleteMission (title : string)
| OtherAction.

(** [io.on('connection', ...)] for the socket [id]; [rx] and [rz] are the two
    readings of [Math.random()]. *)
Definition connection (id : string) (rx rz : R) (st : State.t) : State.t :=
  let initialPosition := Vec3.mk (rx * 50 - 25) 0 (rz * 50 - 25) in
  let player :=
    Player.mk initialPosition
              (LastP.mk (Vec3.x initialPosition) (Vec3.z initialPosition))
              (Vec3.mk 0 0 0) 0 100 false None [] (Some 0%Z) in
  State.mk (<[id := player]> (State.players st)) (State.cars st)
           ({[ id ]} ∪ State.room st).

(** [socket.on('clientInput', ...)]. *)
Definition clientInput (id : string) (input : Input.t) (st : State.t)
  : State.t * list Output :=
  match State.players st !! id with
  | None => (st, [])
  | Some player =>
      let out :=
        if Js.gt_plus (Input.sequence input) (Player.lastProcessedInput player) 10
        then [Warn ("Input sequence jump detected from " +:+ id)]
        else [] in
      let player' := Player.set_pInputs (Player.pInputs player ++ [input]) player in
      (State.set_players (<[id := player']> (State.players st)) st, out)
  end.

(** [car.dId === socket.id] *)
Definition is_driver (id : string) (car : Car.t) : bool :=
  match Car.dId car with
  | Some d => String.eqb d id
  | None => false
  end.

(** The [enterVehicle] branch of [clientAction] (lines 248-260). *)
Definition enterVehicle (id : string) (player : Player.t) (carId : string)
    (st : State.t) : State.t :=
  match State.cars st !! carId with
  | None => st
  | Some car =>
      if negb (Js.truthy_str (Car.dId car)) then
        let car' := Car.set_dId (Some id) car in
        let player' :=
          Player.set_p (Vec3.mk (Vec3.x (Car.p car)) (Vec3.y (Car.p car))
                                (Vec3.z (Car.p car)))
                       (Player.set_driving true (Some carId) player) in
        State.mk (<[id := player']> (State.players st))
                 (<[carId := car']> (State.cars st)) (State.room st)
      else st
  end.

(** The [exitVehicle] branch of [clientAction] (lines 261-272). *)
Definition exitVehicle (id : string) (player : Player.t) (st : State.t)
  : State.t :=
  match State.cars st !! Js.key (Player.vId player) with
  | None => st
  | Some car =>
      if is_driver id car then
        let car' := Car.set_dId None car in
        let player' :=
          Player.set_p (Vec3.mk (Vec3.x (Car.p car) + 2) 0
                                (Vec3.z (Car.p car) + 2))
                       (Player.set_driving false None player) in
        State.mk (<[id := player']> (State.players st))
                 (<[Js.key (Player.vId player) := car']> (State.cars st))
                 (State.room st)
      else st
  end.

(** [socket.on('clientAction', ...)]. *)
Definition clientAction (id : string) (action : Action) (st : State.t)
  : State.t * list Output :=
  match State.players st !! id with
  | None => (st, [])
  | Some player =>
      match action with
      | EnterVehicle carId => (enterVehicle id player carId st, [])
      | ExitVehicle => (exitVehicle id player st, [])
      | CompleteMission title => (st, [EmitMissionComplete title id])
      | OtherAction => (st, [])
      end
  end.

(** [socket.on('disconnect', ...)]. *)
Definition disconnect (id : string) (st : State.t) : State.t :=
  let room' := State.room st ∖ {[ id ]} in
  let cars' :=
    match State.players st !! id with
    | Some player =>
        if Player.d player then
          match State.cars st !! Js.key (Player.vId player) with
          | Some car =>
              <[Js.key (Player.vId player) := Car.set_dId None car]> (State.cars st)
          | None => State.cars st
          end
        else State.cars st
    | None => State.cars st
    end in
  State.mk (delete id (State.players st)) cars' room'.

(** ** Runs of the server *)

Inductive Event : Type :=
| Connect (id : string) (rx rz : R)
| ClientInput (id : string) (input : Input.t)
| ClientAction (id : string) (action : Action)
| Disconnect (id : string)
| Tick (deltaTime : R).

(** A [Tick] carries the [deltaTime] that [gameLoop] hands to
    [simulatePhysics]. *)
Definition handle (ev : Event) (st : State.t) : State.t :=
  match ev with
  | Connect id rx rz => connection id rx rz st
  | ClientInput id input => fst (clientInput id input st)
  | ClientAction id action => fst (clientAction id action st)
  | Disconnect id => disconnect id st
  | Tick deltaTime => simulatePhysics deltaTime st
  end.

Definition run (evs : list Event) (st : State.t) : State.t :=
  foldl (fun acc ev => handle ev acc) st evs.

(** A connection gets a socket id of its own: not empty and not the id of a
    player still in [state.players]. *)
Definition admissible (ev : Event) (st : State.t) : Prop :=
  match ev with
  | Connect id _ _ => id ≠ "" ∧ State.players st !! id = None
  | _ => True
  end.

Inductive reachable : State.t → Prop :=
| reach_init : reachable initialState
| reach_step st ev :
    reachable st → admissible ev st → reachable (handle ev st).

(** ** Client: prediction buffer and reconciliation *)

(** The local [Player] object, as far as [handleSnapshot] reads and writes
    it. *)
Module Local.
Record t : Type := mk {
  id : string;
  position : Vec3.t;
  yaw : R;
  isDriving : bool;
  vehicleId : option string;
  inputSequence : option Z
}.

(** [localPlayer.position.copy(serverPos); localPlayer.yaw = y] *)
Definition snap (serverPos : Vec3.t) (y : R) (pl : t) : t :=
  mk (id pl) serverPos y (isDriving pl) (vehicleId pl) (inputSequence pl).
End Local.

(** The [Networking] object together with [game.localPlayer]. *)
Module Client.
Record t : Type := mk {
  localPlayer : option Local.t;
  connected : bool;
  inputSequence : Z;
  pendingInputs : list Input.t;
  serverStates : list Snapshot.t
}.
End Client.

Definition INTERPOLATION_DELAY : R := 100.
Definition MAX_STATE_BUFFER : nat := 5.

(** [Vector3.distanceTo] *)
Definition distanceTo (a b : Vec3.t) : R :=
  let dx := Vec3.x a - Vec3.x b in
  let dy := Vec3.y a - Vec3.y b in
  let dz := Vec3.z a - Vec3.z b in
  sqrt (dx * dx + dy * dy + dz * dz).

(** [while (this.serverStates.length > MAX_STATE_BUFFER) this.serverStates.shift()] *)
Fixpoint shiftWhileOver {A} (n : nat) (l : list A) : list A :=
  match l with
  | [] => []
  | _ :: rest => if (n <? length l)%nat then shiftWhileOver n rest else l
  end.

(** The key state of a frame and [sendInput(input, deltaTime)]: the packet is
    queued and emitted only on a connected socket. *)
Definition sendInput (input : Input.t) (deltaTime : R) (c : Client.t)
  : Client.t * option Input.t :=
  if negb (Client.connected c) then (c, None)
  else
    let seq := (Client.inputSequence c + 1)%Z in
    let inputPacket :=
      Input.mk (Input.forward input) (Input.backward input) (Input.left input)
               (Input.right input) (Input.jump input) (Input.shift input)
               (Some seq) (Some deltaTime) in
    (Client.mk (Client.localPlayer c) true seq
               (Client.pendingInputs c ++ [inputPacket]) (Client.serverStates c),
     Some inputPacket).

Section Reconciliation.

(** [Player.update(deltaTime, input)], the client's physics step.  The class
    [Player] is imported by the client but defined in none of the sources, so
    the step is a parameter of the reconciliation. *)
Variable update : option R → Input.t → Local.t → Local.t.

(** Lines 153-164: the loop over [pendingInputs] with index [i]; an
    acknowledged entry is spliced out, any other is replayed and kept. *)
Fixpoint replay (acked : option Z) (pending : list Input.t) (pl : Local.t)
  : Local.t * list Input.t :=
  match pending with
  | [] => (pl, [])
  | input :: rest =>
      if Js.le_opt (Input.sequence input) acked then replay acked rest pl
      else
        let '(pl', kept) :=
          replay acked rest (update (Input.deltaTime input) input pl) in
        (pl', input :: kept)
  end.

(** Step 2 of [handleSnapshot] (lines 137-167). *)
Definition reconcile (snapshot : Snapshot.t) (localPlayer : Local.t)
    (pending : list Input.t) : Local.t * list Input.t :=
  if negb (Local.isDriving localPlayer)
     && Js.truthy_num (Local.inputSequence localPlayer)
     && Js.truthy_num (Snapshot.lastProcessedInput snapshot)
  then
    match Snapshot.players snapshot !! Local.id localPlayer with
    | Some lastProcessedState =>
        let serverPos :=
          Vec3.mk (Vec3.x (PlayerView.p lastProcessedState))
                  (Vec3.y (PlayerView.p lastProcessedState))
                  (Vec3.z (PlayerView.p lastProcessedState)) in
        let posError := distanceTo (Local.position localPlayer) serverPos in
        if Js.gtb posError 1.0 then
          replay (Snapshot.lastProcessedInput snapshot) pending
                 (Local.snap serverPos (PlayerView.y lastProcessedState)
                             localPlayer)
        else (localPlayer, pending)
    | None => (localPlayer, pending)
    end
  else (localPlayer, pending).

(** [handleSnapshot], steps 1 and 2.  Steps 3 and 4 write only
    [remotePlayers] and [game.cars], through methods of the classes that are
    not among the sources; they touch neither the local player nor the
    pending inputs and are left out. *)
Definition handleSnapshot (snapshot : Snapshot.t) (c : Client.t) : Client.t :=
  match Client.localPlayer c with
  | None => c
  | Some localPlayer =>
      let serverStates :=
        shiftWhileOver MAX_STATE_BUFFER (Client.serverStates c ++ [snapshot]) in
      let '(localPlayer', pending') :=
        reconcile snapshot localPlayer (Client.pendingInputs c) in
      Client.mk (Some localPlayer') (Client.connected c)
                (Client.inputSequence c) pending' serverStates
  end.

(** What the spec asks of a reconciliation: drop the acknowledged entries,
    start from the authoritative position and yaw, apply the remaining
    commands in order. *)
Definition unacked (acked : option Z) (pending : list Input.t)
  : list Input.t :=
  filter (fun input => Js.le_opt (Input.sequence input) acked = false) pending.

Definition applyAll (cmds : list Input.t) (pl : Local.t) : Local.t :=
  foldl (fun acc input => update (Input.deltaTime input) input acc) pl cmds.

End Reconciliation.

(** ** Client: interpolation of remote players *)

(** An entry of [positionBuffer]. *)
Module Sample.
Record t : Type := mk { timestamp : R; position : Vec3.t; yaw : R }.
End Sample.

(** Lines 206-216: the first [i] with
    [buffer[i].timestamp <= renderTime && buffer[i + 1].timestamp >= renderTime]. *)
Fixpoint findBracket (renderTime : R) (positionBuffer : list Sample.t)
  : option (Sample.t * Sample.t) :=
  match positionBuffer with
  | p1 :: ((p2 :: _) as rest) =>
      if Js.leb (Sample.timestamp p1) renderTime
         && Js.geb (Sample.timestamp p2) renderTime
      then Some (p1, p2)
      else findBracket renderTime rest
  | _ => None
  end.

(** Lines 218-226: the argument of [player.updateMesh], [None] when the
    buffer is empty and no call is made. *)
Definition interpolationFactor (time : R) (positionBuffer : list Sample.t)
  : option Js.quot :=
  let renderTime := time - INTERPOLATION_DELAY in
  match findBracket renderTime positionBuffer with
  | Some (p1, p2) =>
      let range := Sample.timestamp p2 - Sample.timestamp p1 in
      Some (Js.div (renderTime - Sample.timestamp p1) range)
  | None =>
      match positionBuffer with
      | [] => None
      | _ :: _ => Some (Js.Finite 0)
      end
  end.

Definition lerp (a b f : R) : R := a + (b - a) * f.

(** Modelled from the spec: [Player.updateMesh], which turns the factor into
    the rendered position and yaw, is defined in none of the sources.  The
    spec (4.6): the bracketing pair is linearly interpolated in position and
    yaw by the fractional offset between them; without a bracketing pair the
    most recent sample is rendered unmodified.  A factor that is not a number
    renders nothing. *)
Definition renderRemote (time : R) (positionBuffer : list Sample.t)
  : option (Vec3.t * R) :=
  let renderTime := time - INTERPOLATION_DELAY in
  match findBracket renderTime positionBuffer with
  | Some (p1, p2) =>
      match Js.div (renderTime - Sample.timestamp p1)
                   (Sample.timestamp p2 - Sample.timestamp p1) with
      | Js.Finite f =>
          Some (Vec3.mk (lerp (Vec3.x (Sample.position p1)) (Vec3.x (Sample.position p2)) f)
                        (lerp (Vec3.y (Sample.position p1)) (Vec3.y (Sample.position p2)) f)
                        (lerp (Vec3.z (Sample.position p1)) (Vec3.z (Sample.position p2)) f),
                lerp (Sample.yaw p1) (Sample.yaw p2) f)
      | _ => None
      end
  | None => (fun s => (Sample.position s, Sample.yaw s)) <$> last positionBuffer
  end.

(** Modelled from the spec: [Player.applySnapshot], which fills
    [positionBuffer], is defined in none of the sources.  The spec (3, 8):
    the buffer is an ordered sequence of timestamped samples and a duplicate
    timestamp is not appended, so the timestamps increase strictly. *)
Definition increasing (positionBuffer : list Sample.t) : Prop :=
  ∀ (i : nat) s1 s2,
    positionBuffer !! i = Some s1 → positionBuffer !! S i = Some s2 →
    Sample.timestamp s1 < Sample.timestamp s2.

(** [a] lies between [b1] and [b2], whichever is the smaller. *)
Definition between (b1 b2 a : R) : Prop := Rmin b1 b2 <= a <= Rmax b1 b2.


(** ** Client: the car of [car.js] *)

(** The [THREE.Vector3] operations [car.js] uses, in exact arithmetic. *)
Definition vadd (a b : Vec3.t) : Vec3.t :=
  Vec3.mk (Vec3.x a + Vec3.x b) (Vec3.y a + Vec3.y b) (Vec3.z a + Vec3.z b).

Definition multiplyScalar (s : R) (v : Vec3.t) : Vec3.t :=
  Vec3.mk (Vec3.x v * s) (Vec3.y v * s) (Vec3.z v * s).

Definition vlength (v : Vec3.t) : R :=
  sqrt (Vec3.x v * Vec3.x v + Vec3.y v * Vec3.y v + Vec3.z v * Vec3.z v).

(** [x || 1] on a number. *)
Definition orOne (x : R) : R := if Req_dec_T x 0 then 1 else x.

(** [normalize()] is [divideScalar(length() || 1)], and [divideScalar(s)] is
    [multiplyScalar(1 / s)]. *)
Definition normalize (v : Vec3.t) : Vec3.t :=
  multiplyScalar (1 / orOne (vlength v)) v.

Definition setLength (l : R) (v : Vec3.t) : Vec3.t :=
  multiplyScalar l (normalize v).

(** [applyAxisAngle(new Vector3(0, 1, 0), angle)]: the rotation about the
    y axis. *)
Definition applyAxisAngleY (angle : R) (v : Vec3.t) : Vec3.t :=
  Vec3.mk (Vec3.x v * cos angle + Vec3.z v * sin angle)
          (Vec3.y v)
          (Vec3.z v * cos angle - Vec3.x v * sin angle).

Definition MAX_SPEED : R := 20.
Definition ACCELERATION : R := 25.
Definition DRAG : R := 0.98.
Definition ANGULAR_DRAG : R := 0.9.
Definition STEERING_SPEED : R := 0.05.
Definition HANDBRAKE_DRAG : R := 0.85.
Definition MAX_HISTORY : nat := 300.

Module CarInput.
Record t : Type := mk {
  forward : bool;
  backward : bool;
  left : bool;
  right : bool;
  handbrake : bool
}.
End CarInput.

(** [this.state] of a car. *)
Module CarState.
Record t : Type := mk {
  position : Vec3.t;
  rotation : R;
  velocity : Vec3.t;
  angularVelocity : R;
  input : CarInput.t
}.
End CarState.

(** An entry of [history], and the object [getState] returns: both have the
    fields [timestamp], [position], [rotation], [velocity], [input]. *)
Module Frame.
Record t : Type := mk {
  timestamp : R;
  position : Vec3.t;
  rotation : R;
  velocity : Vec3.t;
  input : CarInput.t
}.
End Frame.

(** The class [Car] of [car.js]; of the mesh, its position and its rotation
    about y. *)
Module ClientCar.
Record t : Type := mk {
  id : string;
  isLocal : bool;
  meshPosition : Vec3.t;
  meshRotationY : R;
  state : CarState.t;
  lastUpdateTime : R;
  history : list Frame.t
}.

(** [handleInput(input)] *)
Definition handleInput (input : CarInput.t) (car : t) : t :=
  mk (id car) (isLocal car) (meshPosition car) (meshRotationY car)
     (CarState.mk (CarState.position (state car)) (CarState.rotation (state car))
                  (CarState.velocity (state car))
                  (CarState.angularVelocity (state car)) input)
     (lastUpdateTime car) (history car).

(** [update(deltaSeconds)]; [historyNow] and [endNow] are the two readings of
    [performance.now()]. *)
Definition update (deltaSeconds historyNow endNow : R) (car : t) : t :=
  let state := state car in
  let input := CarState.input state in
  let throttle := 0 in
  let throttle :=
    if CarInput.forward input then throttle + ACCELERATION else throttle in
  let throttle :=
    if CarInput.backward input then throttle - ACCELERATION else throttle in
  let directionVector :=
    applyAxisAngleY (CarState.rotation state) (Vec3.mk 0 0 1) in
  let velocity :=
    vadd (CarState.velocity state)
         (multiplyScalar (throttle * deltaSeconds) directionVector) in
  let currentDrag := DRAG in
  let velocity :=
    if CarInput.handbrake input
    then multiplyScalar (Rpower HANDBRAKE_DRAG (deltaSeconds * 60)) velocity
    else multiplyScalar (Rpower currentDrag (deltaSeconds * 60)) velocity in
  let velocity :=
    if Js.gtb (vlength velocity) MAX_SPEED
    then setLength MAX_SPEED velocity else velocity in
  let steering := 0 in
  let steering :=
    if CarInput.left input then steering + STEERING_SPEED else steering in
  let steering :=
    if CarInput.right input then steering - STEERING_SPEED else steering in
  let speed := vlength velocity in
  let angularVelocity :=
    if Js.gtb speed 1
    then CarState.angularVelocity state + steering * (speed / MAX_SPEED) * 2
    else CarState.angularVelocity state in
  let angularVelocity := angularVelocity * ANGULAR_DRAG in
  let rotation := CarState.rotation state + angularVelocity * deltaSeconds in
  let position :=
    vadd (CarState.position state) (multiplyScalar deltaSeconds velocity) in
  let position := Vec3.mk (Vec3.x position) 0.6 (Vec3.z position) in
  let history :=
    if isLocal car
    then shiftWhileOver MAX_HISTORY
           (history car ++ [Frame.mk historyNow position rotation velocity input])
    else history car in
  mk (id car) (isLocal car) position rotation
     (CarState.mk position rotation velocity angularVelocity input)
     endNow history.

(** [setState(newState)] *)
Definition setState (newState : Frame.t) (car : t) : t :=
  mk (id car) (isLocal car) (Frame.position newState) (Frame.rotation newState)
     (CarState.mk (Frame.position newState) (Frame.rotation newState)
                  (Frame.velocity newState)
                  (CarState.angularVelocity (state car))
                  (CarState.input (state car)))
     (lastUpdateTime car) (history car).

(** [getState()] *)
Definition getState (car : t) : Frame.t :=
  Frame.mk (lastUpdateTime car) (CarState.position (state car))
           (CarState.rotation (state car)) (CarState.velocity (state car))
           (CarState.input (state car)).
End ClientCar.

(** ** Client: the mission of the main loop *)

(** [game.mission], with the marker's position, visibility and scale. *)
Module Mission.
Record t : Type := mk {
  markerPosition : Vec3.t;
  markerVisible : bool;
  markerScale : R;
  active : bool;
  title : string
}.
End Mission.

(** What [updateMissionLogic] lets out: the action sent to the server and
    the chat line. *)
Inductive MissionEffect : Type :=
| SendCompleteMission (title : string) (playerId : string)
| SystemChat (message : string).

(** [updateMissionLogic()].  [carPosition] is what
    [game.cars[game.localPlayer.vehicleId].position] reads, [None] when that
    is undefined; the result is [None] when the call throws (the distance of
    an undefined position). *)
Definition updateMissionLogic (lastTime : R) (localPlayer : option Local.t)
    (carPosition : option Vec3.t) (mission : Mission.t)
  : option (Mission.t * list MissionEffect) :=
  match localPlayer with
  | None => Some (mission, [])
  | Some player =>
      if negb (Mission.active mission) then Some (mission, [])
      else
        let targetPos :=
          if Local.isDriving player then carPosition
          else Some (Local.position player) in
        match targetPos with
        | None => None
        | Some targetPos =>
            let distance := distanceTo targetPos (Mission.markerPosition mission) in
            let '(active, visible, out) :=
              if Js.ltb distance 10
              then (false, false,
                    [SendCompleteMission (Mission.title mission) (Local.id player);
                     SystemChat ("Mission Complete: '" +:+ Mission.title mission
                                 +:+ "'!")])
              else (Mission.active mission, Mission.markerVisible mission, []) in
            Some (Mission.mk (Mission.markerPosition mission) visible
                             (1 + sin (lastTime / 200) * 0.2) active
                             (Mission.title mission),
                  out)
        end
  end.

(** One call per frame: the frame's clock, local player and car position.  A
    call that throws ends its frame and leaves the mission as it was. *)
Fixpoint missionFrames
    (frames : list (R * option Local.t * option Vec3.t)) (mission : Mission.t)
  : Mission.t * list MissionEffect :=
  match frames with
  | [] => (mission, [])
  | (lastTime, localPlayer, carPosition) :: rest =>
      match updateMissionLogic lastTime localPlayer carPosition mission with
      | None => missionFrames rest mission
      | Some (mission', out) =>
          let '(final, outs) := missionFrames rest mission' in
          (final, out ++ outs)
      end
  end.

(** * Properties *)

(** ** Occupancy arbitration: the invariant *)

(** What the arbiter reads of a player ([d], [vId]) and of a car ([dId]). *)
Definition occ (player : Player.t) : bool * option string :=
  (Player.d player, Player.vId player).

Definition seats (st : State.t) : gmap string (bool * option string) :=
  occ <$> State.players st.

Definition drivers (st : State.t) : gmap string (option string) :=
  Car.dId <$> State.cars st.

(** The player [id] is in [state.players] with [d = true] and
    [vId = carId]. *)
Definition references (st : State.t) (id carId : string) : Prop :=
  ∃ player, State.players st !! id = Some player ∧
            Player.d player = true ∧ Player.vId player = Some carId.

(** [car.dId] is set (the arbiter's test is [!car.dId]). *)
Definition has_driver (car : Car.t) : Prop :=
  Js.truthy_str (Car.dId car) = true.

Definition occupancy_ok (st : State.t) : Prop :=
  ∀ carId car, State.cars st !! carId = Some car →
    (∀ id, Car.dId car = Some id ↔ references st id carId) ∧
    (has_driver car ↔ exists! id, references st id carId).

Record arbiter_inv (P : gmap string (bool * option string))
    (C : gmap string (option string)) : Prop := ArbiterInv {
  inv_single : ∀ carId o, C !! carId = Some o → carId = "car1";
  inv_noempty : P !! "" = None;
  inv_driver : ∀ carId id,
      C !! carId = Some (Some id) → P !! id = Some (true, Some carId);
  inv_seat : ∀ id v,
      P !! id = Some (true, v) →
      ∃ carId, v = Some carId ∧ C !! carId = Some (Some id)
}.

(** ** The simulator does not read a command's [deltaTime] *)

Definition forgetDeltaTime (input : Input.t) : Input.t :=
  Input.mk (Input.forward input) (Input.backward input) (Input.left input)
           (Input.right input) (Input.jump input) (Input.shift input)
           (Input.sequence input) None.

Definition forgetPlayer (player : Player.t) : Player.t :=
  Player.set_pInputs (forgetDeltaTime <$> Player.pInputs player) player.

Definition forgetCar (car : Car.t) : Car.t :=
  Car.mk (Car.id car) (Car.p car) (Car.y car) (Car.s car) (Car.dId car)
         (forgetDeltaTime <$> Car.pInputs car) (Car.lastProcessedInput car).

Definition forgetState (st : State.t) : State.t :=
  State.mk (forgetPlayer <$> State.players st) (forgetCar <$> State.cars st)
           (State.room st).

Definition forgetEvent (ev : Event) : Event :=
  match ev with
  | ClientInput id input => ClientInput id (forgetDeltaTime input)
  | _ => ev
  end.

(** The reading of the spec in which every queued command is applied with
    its own [deltaTime] ([None] when a command carries none). *)
Fixpoint processInputsOwnDelta (q : list Input.t) (player : Player.t)
  : option Player.t :=
  match q with
  | [] => Some (Player.set_pInputs [] player)
  | input :: rest =>
      match Input.deltaTime input with
      | Some deltaTime =>
          processInputsOwnDelta rest
            (applyInput deltaTime input (Player.set_pInputs rest player))
      | None => None
      end
  end.

(** ** The sanity check and the idle car *)

(** The player after an input for which the sanity check fired: [lastP] as
    horizontal position, the vertical coordinate of the ground rule, the
    input acknowledged. *)
Definition reverted (deltaTime : R) (input : Input.t) (player : Player.t)
  : Player.t :=
  Player.mk (Vec3.mk (LastP.x (Player.lastP player))
                     (Vec3.y (movePlayer deltaTime input player))
                     (LastP.z (Player.lastP player)))
            (Player.lastP player) (Player.v player) (Player.y player)
            (Player.h player) (Player.d player) (Player.vId player)
            (Player.pInputs player) (Input.sequence input).

(** What the ground rule reads of a player: [d] and the height [p.y]. *)
Definition footing (player : Player.t) : bool * R :=
  (Player.d player, Vec3.y (Player.p player)).

(** Every player who is not driving stands at height 0. *)
Definition grounded (st : State.t) : Prop :=
  ∀ id player, State.players st !! id = Some player →
    Player.d player = false → Vec3.y (Player.p player) = 0.

(** The speed after a step without throttle: the drag alone, clamped. *)
Definition coast (deltaTime s : R) : R :=
  Rmin (Rmax (s + - (Js.sign s * (s * 0.5 * s * 0.1)) / 1000 * deltaTime)
             (- MAX_CAR_SPEED))
       MAX_CAR_SPEED.

(** ** Interpolation *)

(** Bounded interpolation of one remote player at client time [time]: with a
    bracketing pair, the pair is two neighbouring samples around the render
    time, the factor handed to [updateMesh] is the fractional offset, it lies
    in [0, 1], and the rendered position and yaw are the convex combination
    of the pair with that factor, so within the pair's coordinates; with no
    bracketing pair the last sample is rendered as it is ([updateMesh(0)]). *)
Definition bounded_interpolation (time : R) (positionBuffer : list Sample.t)
  : Prop :=
  let renderTime := time - INTERPOLATION_DELAY in
  match findBracket renderTime positionBuffer with
  | Some (p1, p2) =>
      (∃ i : nat, positionBuffer !! i = Some p1 ∧ positionBuffer !! S i = Some p2)
      ∧ Sample.timestamp p1 <= renderTime <= Sample.timestamp p2
      ∧ ∃ f pos yaw,
          interpolationFactor time positionBuffer = Some (Js.Finite f)
          ∧ f = (renderTime - Sample.timestamp p1)
                / (Sample.timestamp p2 - Sample.timestamp p1)
          ∧ 0 <= f <= 1
          ∧ renderRemote time positionBuffer = Some (pos, yaw)
          ∧ Vec3.x pos = (1 - f) * Vec3.x (Sample.position p1)
                         + f * Vec3.x (Sample.position p2)
          ∧ Vec3.y pos = (1 - f) * Vec3.y (Sample.position p1)
                         + f * Vec3.y (Sample.position p2)
          ∧ Vec3.z pos = (1 - f) * Vec3.z (Sample.position p1)
                         + f * Vec3.z (Sample.position p2)
          ∧ yaw = (1 - f) * Sample.yaw p1 + f * Sample.yaw p2
          ∧ between (Vec3.x (Sample.position p1)) (Vec3.x (Sample.position p2))
                    (Vec3.x pos)
          ∧ between (Vec3.y (Sample.position p1)) (Vec3.y (Sample.position p2))
                    (Vec3.y pos)
          ∧ between (Vec3.z (Sample.position p1)) (Vec3.z (Sample.position p2))
                    (Vec3.z pos)
          ∧ between (Sample.yaw p1) (Sample.yaw p2) yaw
  | None =>
      interpolationFactor time positionBuffer
      = match positionBuffer with [] => None | _ :: _ => Some (Js.Finite 0) end
      ∧ renderRemote time positionBuffer
        = (fun s => (Sample.position s, Sample.yaw s)) <$> last positionBuffer
  end.

(** * Further properties *)

(** ** Server *)

(** [lastP] holds the player's horizontal position. *)
Definition synced (player : Player.t) : Prop :=
  LastP.x (Player.lastP player) = Vec3.x (Player.p player)
  ∧ LastP.z (Player.lastP player) = Vec3.z (Player.p player).

(** The player after an input whose movement the sanity check lets
    through. *)
Definition accepted (deltaTime : R) (input : Input.t) (player : Player.t)
  : Player.t :=
  Player.mk (movePlayer deltaTime input player)
            (LastP.mk (Vec3.x (movePlayer deltaTime input player))
                      (Vec3.z (movePlayer deltaTime input player)))
            (Player.v player) (Player.y player) (Player.h player)
            (Player.d player) (Player.vId player) (Player.pInputs player)
            (Input.sequence input).

(** The horizontal distance between a position and a last accepted one. *)
Definition stride (lastP : LastP.t) (p : Vec3.t) : R :=
  sqrt ((Vec3.x p - LastP.x lastP) * (Vec3.x p - LastP.x lastP)
        + (Vec3.z p - LastP.z lastP) * (Vec3.z p - LastP.z lastP)).

(** A car's speed is within the cap and the car is on the ground. *)
Definition car_in_bounds (car : Car.t) : Prop :=
  - MAX_CAR_SPEED <= Car.s car <= MAX_CAR_SPEED ∧ Vec3.y (Car.p car) = 0.75.

(** ** Client *)

(** Both commands carry a sequence number, the first the smaller. *)
Definition seq_lt (i1 i2 : Input.t) : Prop :=
  ∃ s1 s2 : Z, Input.sequence i1 = Some s1 ∧ Input.sequence i2 = Some s2
               ∧ (s1 < s2)%Z.

(** The pending inputs carry strictly increasing sequence numbers, none
    above the last one given out. *)
Definition pending_ok (c : Client.t) : Prop :=
  StronglySorted seq_lt (Client.pendingInputs c)
  ∧ Forall (fun input => ∃ s : Z, Input.sequence input = Some s
                                  ∧ (s <= Client.inputSequence c)%Z)
           (Client.pendingInputs c).

(** A physics step that leaves the fields the reconciliation guard reads
    ([id], [isDriving], [vehicleId], [inputSequence]) alone. *)
Definition keeps_identity (update : option R → Input.t → Local.t → Local.t)
  : Prop :=
  ∀ deltaTime input pl,
    Local.id (update deltaTime input pl) = Local.id pl
    ∧ Local.isDriving (update deltaTime input pl) = Local.isDriving pl
    ∧ Local.vehicleId (update deltaTime input pl) = Local.vehicleId pl
    ∧ Local.inputSequence (update deltaTime input pl) = Local.inputSequence pl.

(** The render time lies within the span of a buffer of at least two
    samples. *)
Definition within_span (renderTime : R) (positionBuffer : list Sample.t)
  : Prop :=
  ∃ first lst,
    head positionBuffer = Some first ∧ last positionBuffer = Some lst
    ∧ (2 <= length positionBuffer)%nat
    ∧ Sample.timestamp first <= renderTime <= Sample.timestamp lst.

Definition is_completion (e : MissionEffect) : bool :=
  match e with
  | SendCompleteMission _ _ => true
  | SystemChat _ => false
  end.

(** The [completeMission] actions among the effects. *)
Definition completions (out : list MissionEffect) : list MissionEffect :=
  filter (fun e => is_completion e = true) out.

(** * Scenarios *)

(** A drift of ten units: the server holds [p1] at [(10, 0, 0)] with input 1
    processed; the client predicts [(0, 0, 0)] with inputs 1 and 2 pending. *)
Definition driftCommand (seq : Z) : Input.t :=
  Input.mk true false false false false false (Some seq) (Some 0.016).

Definition driftState : State.t :=
  State.mk
    {[ "p1" := Player.mk (Vec3.mk 10 0 0) (LastP.mk 10 0) (Vec3.mk 0 0 0) 0 100
                         false None [] (Some 1%Z) ]}
    {[ "car1" := car1 ]} {[ "p1" ]}.

Definition driftClient : Client.t :=
  Client.mk (Some (Local.mk "p1" (Vec3.mk 0 0 0) 0 false None (Some 2%Z)))
            true 2 [driftCommand 1; driftCommand 2] [].

(** The scenario of the spec with the guard of step 2 satisfied: predicted
    [(5, 0, 0)], authoritative [(5.5, 0, 0)], input 1 acknowledged and still
    pending. *)
Definition nearSnapshot : Snapshot.t :=
  Snapshot.mk
    {[ "p1" := PlayerView.mk (Vec3.mk 5.5 0 0) 0 100 false None (Some 1%Z) ]}
    ∅ 1000 (Some 1%Z).

Definition nearClient : Client.t :=
  Client.mk (Some (Local.mk "p1" (Vec3.mk 5 0 0) 0 false None (Some 1%Z)))
            true 1 [driftCommand 1] [].

(** A player ejected at [(100, 0, 0)] whose last accepted position is the
    origin. *)
Definition strandedPlayer : Player.t :=
  Player.mk (Vec3.mk 100 0 0) (LastP.mk 0 0) (Vec3.mk 0 0 0) 0 100 false None
            [] (Some 0%Z).

(** A player at the origin facing yaw 0 with one queued command: forward,
    sequence 1, sent with [deltaTime = 0.016]. *)
Definition walkCommand : Input.t :=
  Input.mk true false false false false false (Some 1%Z) (Some 0.016).

Definition walkPlayer : Player.t :=
  Player.mk (Vec3.mk 0 0 0) (LastP.mk 0 0) (Vec3.mk 0 0 0) 0 100 false None
            [walkCommand] (Some 0%Z).

Definition walkState : State.t :=
  State.mk {[ "p1" := walkPlayer ]} {[ "car1" := car1 ]} {[ "p1" ]}.

(** [p1] sits in [car1] and sends nothing. *)
Definition idleDriverState : State.t :=
  State.mk
    {[ "p1" := Player.mk (Vec3.mk 50 0.75 50) (LastP.mk 0 0) (Vec3.mk 0 0 0) 0
                         100 true (Some "car1") [] (Some 7%Z) ]}
    {[ "car1" := Car.mk "car1" (Vec3.mk 50 0.75 50) 0 3 (Some "p1") []
                        (Some 7%Z) ]}
    {[ "p1" ]}.

(** The scenario of the spec: [p1] and [p2] are connected, [p1] has entered
    [car1]. *)
Definition raceState : State.t :=
  run [Connect "p1" 0.5 0.5; Connect "p2" 0.5 0.5;
       ClientAction "p1" (EnterVehicle "car1")] initialState.

(** The command of [driftCommand 2] sent with another [deltaTime]. *)
Definition walkCommandLate : Input.t :=
  Input.mk true false false false false false (Some 2%Z) (Some 0.05).

(** Two samples 100 ms apart, rendered half way. *)
Definition sampleBuffer : list Sample.t :=
  [Sample.mk 0 (Vec3.mk 0 0 0) 0; Sample.mk 100 (Vec3.mk 10 0 4) 1].


(** [p1] has connected, entered [car1] and sent one command. *)
Definition drivingState : State.t :=
  run [Connect "p1" 0.5 0.5; ClientAction "p1" (EnterVehicle "car1");
       ClientInput "p1" walkCommand] initialState.

Definition drivingPlayer : Player.t :=
  Player.mk (Vec3.mk 50 0.75 50) (LastP.mk (0.5 * 50 - 25) (0.5 * 50 - 25))
            (Vec3.mk 0 0 0) 0 100 true (Some "car1") [walkCommand] (Some 0%Z).

(** The drift of ten units acknowledged at the top level of the snapshot,
    and a stand-in for the client's step: one unit along x per command. *)
Definition ackedSnapshot : Snapshot.t :=
  Snapshot.mk
    {[ "p1" := PlayerView.mk (Vec3.mk 10 0 0) 0 100 false None (Some 1%Z) ]}
    ∅ 1000 (Some 1%Z).

Definition stepUpdate (deltaTime : option R) (input : Input.t) (pl : Local.t)
  : Local.t :=
  Local.mk (Local.id pl)
           (Vec3.mk (Vec3.x (Local.position pl) + 1)
                    (Vec3.y (Local.position pl)) (Vec3.z (Local.position pl)))
           (Local.yaw pl) (Local.isDriving pl) (Local.vehicleId pl)
           (Local.inputSequence pl).

(** A local car at the origin heading along z at 30 units per second, with
    the forward key held. *)
Definition speedingCar : ClientCar.t :=
  ClientCar.mk "car1" true (Vec3.mk 0 0.6 0) 0
    (CarState.mk (Vec3.mk 0 0.6 0) 0 (Vec3.mk 0 0 30) 0
                 (CarInput.mk true false false false false))
    0 [].

(** The same car, rolling at 10 with no key held. *)
Definition coastingCar : ClientCar.t :=
  ClientCar.mk "car1" true (Vec3.mk 0 0.6 0) 0
    (CarState.mk (Vec3.mk 0 0.6 0) 0 (Vec3.mk 0 0 10) 0
                 (CarInput.mk false false false false false))
    0 [].

(** The mission of the game, accepted, with the marker at (100, 2.5, 100). *)
Definition tutorialMission : Mission.t :=
  Mission.mk (Vec3.mk 100 2.5 100) true 1 true "The Blue Marker".

(** * Theorems *)

(** ** Numbers *)

Lemma gtb_true x y : Js.gtb x y = true ↔ x > y.
Proof. unfold Js.gtb. destruct (Rgt_dec x y); split; (done || lra). Qed.

Lemma gtb_false x y : Js.gtb x y = false ↔ x <= y.
Proof. unfold Js.gtb. destruct (Rgt_dec x y); split; (done || lra). Qed.

Lemma sqrt_sq_pos x : 0 <= x → sqrt (x * x) = x.
Proof. intros H. by apply sqrt_square. Qed.

Lemma leb_true x y : Js.leb x y = true ↔ x <= y.
Proof. unfold Js.leb. destruct (Rle_dec x y); split; (done || lra). Qed.

Lemma geb_true x y : Js.geb x y = true ↔ y <= x.
Proof. unfold Js.geb. destruct (Rge_dec x y); split; (done || lra). Qed.

Lemma div_nonzero x y : y ≠ 0 → Js.div x y = Js.Finite (x / y).
Proof. intros Hy. unfold Js.div. by destruct (Req_dec_T y 0). Qed.

Lemma gtb_div_pos x deltaTime c :
  0 < deltaTime →
  Js.quot_gtb (Js.div x deltaTime) c = Js.gtb x (c * deltaTime).
Proof.
  intros Hdt. unfold Js.div. destruct (Req_dec_T deltaTime 0) as [->|_]; [lra|].
  simpl. unfold Js.gtb.
  assert (x / deltaTime > c ↔ x > c * deltaTime) as Hiff.
  { split; intros H.
    - apply (Rmult_lt_compat_r deltaTime) in H; [|done].
      unfold Rdiv in H. rewrite Rmult_assoc, Rinv_l, Rmult_1_r in H; lra.
    - apply (Rmult_lt_reg_r deltaTime); [done|].
      unfold Rdiv. rewrite Rmult_assoc, Rinv_l, Rmult_1_r; lra. }
  destruct (Rgt_dec (x / deltaTime) c), (Rgt_dec x (c * deltaTime)); tauto.
Qed.


(** ** Occupancy arbitration *)

Section ArbiterViews.
Implicit Types (P : gmap string (bool * option string)).
Implicit Types (C : gmap string (option string)).

Lemma truthy_str_false_inv P C carId o :
  arbiter_inv P C → C !! carId = Some o → Js.truthy_str o = false → o = None.
Proof.
  intros HI HC Ht. destruct o as [s|]; [|done].
  pose proof (inv_driver _ _ HI _ _ HC) as HP.
  destruct (decide (s = "")) as [->|Hne].
  - rewrite (inv_noempty _ _ HI) in HP. done.
  - simpl in Ht. apply negb_false_iff, String.eqb_eq in Ht. done.
Qed.

Lemma inv_connect P C id :
  id ≠ "" → P !! id = None → arbiter_inv P C →
  arbiter_inv (<[id := (false, None)]> P) C.
Proof.
  intros Hne Hfresh HI. split.
  - apply HI.
  - rewrite lookup_insert_ne; [apply HI|done].
  - intros carId id' HC. pose proof (inv_driver _ _ HI _ _ HC) as HP.
    rewrite lookup_insert_ne; [done|]. intros ->. congruence.
  - intros id' v. rewrite lookup_insert. case_decide; [done|]. apply HI.
Qed.

Lemma inv_enter P C id o carId :
  arbiter_inv P C → P !! id = Some o → C !! carId = Some None →
  arbiter_inv (<[id := (true, Some carId)]> P) (<[carId := Some id]> C).
Proof.
  intros HI HP HC.
  assert (Hfree : fst o = false).
  { destruct o as [[] v]; [|done]. destruct (inv_seat _ _ HI _ _ HP) as (c & -> & Hc).
    rewrite (inv_single _ _ HI _ _ Hc), <- (inv_single _ _ HI _ _ HC) in Hc.
    congruence. }
  split.
  - intros c o'. rewrite lookup_insert. case_decide; [intros _|apply HI].
    subst. eapply inv_single; eauto.
  - rewrite lookup_insert_ne; [apply HI|]. intros ->.
    rewrite (inv_noempty _ _ HI) in HP. done.
  - intros c id'. rewrite lookup_insert. case_decide as Hc.
    + intros [= <-]. subst. by rewrite lookup_insert_eq.
    + intros HC'. pose proof (inv_driver _ _ HI _ _ HC') as HP'.
      rewrite lookup_insert_ne; [done|]. intros <-.
      rewrite HP in HP'. injection HP' as ->. done.
  - intros id' v. rewrite lookup_insert. case_decide as Hid.
    + intros [= <-]. exists carId. subst. by rewrite lookup_insert_eq.
    + intros HP'. destruct (inv_seat _ _ HI _ _ HP') as (c & -> & Hc).
      exists c. split; [done|]. rewrite lookup_insert_ne; [done|].
      intros <-. congruence.
Qed.

Lemma inv_leave P C id o carId :
  arbiter_inv P C → P !! id = Some o → C !! carId = Some (Some id) →
  arbiter_inv (<[id := (false, None)]> P) (<[carId := None]> C).
Proof.
  intros HI HP HC. split.
  - intros c o'. rewrite lookup_insert. case_decide; [intros _|apply HI].
    subst. eapply inv_single; eauto.
  - rewrite lookup_insert_ne; [apply HI|]. intros ->.
    rewrite (inv_noempty _ _ HI) in HP. done.
  - intros c id'. rewrite lookup_insert. case_decide as Hc; [done|].
    intros HC'. pose proof (inv_driver _ _ HI _ _ HC') as HP'.
    rewrite lookup_insert_ne; [done|]. intros <-.
    pose proof (inv_driver _ _ HI _ _ HC) as HP''. congruence.
  - intros id' v. rewrite lookup_insert. case_decide as Hid; [done|].
    intros HP'. destruct (inv_seat _ _ HI _ _ HP') as (c & -> & Hc).
    exists c. split; [done|]. rewrite lookup_insert_ne; [done|].
    intros <-. congruence.
Qed.

Lemma inv_release P C carId id :
  arbiter_inv P C → C !! carId = Some (Some id) → P !! id = None →
  arbiter_inv P (<[carId := None]> C).
Proof.
  intros HI HC HP. rewrite (inv_driver _ _ HI _ _ HC) in HP. done.
Qed.

Lemma inv_delete_idle P C id :
  arbiter_inv P C → (∀ v, P !! id ≠ Some (true, v)) →
  arbiter_inv (delete id P) C.
Proof.
  intros HI Hidle. split.
  - apply HI.
  - rewrite lookup_delete. case_decide; [done|apply HI].
  - intros c id' HC. pose proof (inv_driver _ _ HI _ _ HC) as HP.
    rewrite lookup_delete_ne; [done|]. intros ->. by eapply Hidle.
  - intros id' v. rewrite lookup_delete. case_decide; [done|]. apply HI.
Qed.

Lemma inv_delete_driver P C id carId :
  arbiter_inv P C → P !! id = Some (true, Some carId) →
  arbiter_inv (delete id P) (<[carId := None]> C).
Proof.
  intros HI HP.
  destruct (inv_seat _ _ HI _ _ HP) as (c & [= <-] & HC).
  split.
  - intros c o'. rewrite lookup_insert. case_decide; [intros _|apply HI].
    subst. eapply inv_single; eauto.
  - rewrite lookup_delete. case_decide; [done|apply HI].
  - intros c id'. rewrite lookup_insert. case_decide as Hc; [done|].
    intros HC'. pose proof (inv_driver _ _ HI _ _ HC') as HP'.
    rewrite lookup_delete_ne; [done|]. intros <-. congruence.
  - intros id' v. rewrite lookup_delete. case_decide as Hid; [done|].
    intros HP'. destruct (inv_seat _ _ HI _ _ HP') as (c & -> & Hc).
    exists c. split; [done|]. rewrite lookup_insert_ne; [done|].
    intros <-. congruence.
Qed.

End ArbiterViews.

(** The views after each handler. *)

Lemma seats_lookup st id player :
  State.players st !! id = Some player → seats st !! id = Some (occ player).
Proof. intros H. unfold seats. by rewrite lookup_fmap, H. Qed.

Lemma drivers_lookup st carId car :
  State.cars st !! carId = Some car → drivers st !! carId = Some (Car.dId car).
Proof. intros H. unfold drivers. by rewrite lookup_fmap, H. Qed.

Lemma references_seats st id carId :
  references st id carId ↔ seats st !! id = Some (true, Some carId).
Proof.
  unfold references, seats. rewrite lookup_fmap. split.
  - intros (pl & -> & Hd & Hv). simpl. unfold occ. by rewrite Hd, Hv.
  - destruct (State.players st !! id) as [pl|]; [|done].
    intros [= Hd Hv]. eauto.
Qed.

Lemma fmap_insert_same {A B} (f : A → B) (m : gmap string A) k a a' :
  m !! k = Some a → f a' = f a → f <$> <[k := a']> m = f <$> m.
Proof.
  intros Hk Hf. rewrite fmap_insert, Hf. apply insert_id.
  by rewrite lookup_fmap, Hk.
Qed.

Lemma occ_applyInput deltaTime input player :
  occ (applyInput deltaTime input player) = occ player.
Proof. reflexivity. Qed.

Lemma occ_processInputs deltaTime q player :
  occ (processInputs deltaTime q player) = occ player.
Proof.
  revert player. induction q as [|input rest IH]; intros player; simpl.
  - reflexivity.
  - rewrite IH. reflexivity.
Qed.

Lemma occ_playerTick deltaTime player :
  occ (playerTick deltaTime player) = occ player.
Proof.
  unfold playerTick. destruct (Player.d player); [done|].
  apply occ_processInputs.
Qed.

Lemma seats_playerPhase deltaTime st :
  seats (playerPhase deltaTime st) = seats st.
Proof.
  unfold seats, playerPhase. simpl. rewrite <- map_fmap_compose.
  apply map_fmap_ext. intros id pl _. apply occ_playerTick.
Qed.

Lemma drivers_playerPhase deltaTime st :
  drivers (playerPhase deltaTime st) = drivers st.
Proof. reflexivity. Qed.

Lemma truthy_str_Some o :
  Js.truthy_str o = true → ∃ id, o = Some id ∧ id ≠ "".
Proof.
  destruct o as [s|]; [|done]. simpl. intros H. exists s. split; [done|].
  intros ->. done.
Qed.

Lemma carStep_inv deltaTime carId st :
  arbiter_inv (seats st) (drivers st) →
  arbiter_inv (seats (carStep deltaTime carId st))
              (drivers (carStep deltaTime carId st)).
Proof.
  intros HI. unfold carStep.
  destruct (State.cars st !! carId) as [car|] eqn:Hcar; [|done].
  destruct (Js.truthy_str (Car.dId car)) eqn:Ht; simpl; [|done].
  destruct (truthy_str_Some _ Ht) as (d & Hd & _). rewrite Hd. simpl.
  destruct (State.players st !! d) as [driver|] eqn:Hdrv.
  - unfold seats, drivers. simpl.
    rewrite (fmap_insert_same occ _ _ driver), (fmap_insert_same Car.dId _ _ car);
      done.
  - unfold drivers at 1. simpl. rewrite fmap_insert. simpl.
    apply (inv_release _ _ _ d); [done| |].
    + rewrite lookup_fmap, Hcar. simpl. by rewrite Hd.
    + unfold seats. simpl. by rewrite lookup_fmap, Hdrv.
Qed.

Lemma carPhase_inv deltaTime st :
  arbiter_inv (seats st) (drivers st) →
  arbiter_inv (seats (carPhase deltaTime st)) (drivers (carPhase deltaTime st)).
Proof.
  unfold carPhase. generalize (elements (dom (State.cars st))).
  intros l. revert st. induction l as [|carId l IH]; intros st HI; simpl.
  - done.
  - apply IH, carStep_inv, HI.
Qed.

Lemma simulatePhysics_inv deltaTime st :
  arbiter_inv (seats st) (drivers st) →
  arbiter_inv (seats (simulatePhysics deltaTime st))
              (drivers (simulatePhysics deltaTime st)).
Proof.
  intros HI. apply carPhase_inv.
  by rewrite seats_playerPhase, drivers_playerPhase.
Qed.

Lemma connection_inv id rx rz st :
  id ≠ "" → State.players st !! id = None →
  arbiter_inv (seats st) (drivers st) →
  arbiter_inv (seats (connection id rx rz st)) (drivers (connection id rx rz st)).
Proof.
  intros Hne Hfresh HI. unfold seats at 1, drivers at 1, connection. simpl.
  rewrite fmap_insert. apply inv_connect; [done| |done].
  unfold seats. by rewrite lookup_fmap, Hfresh.
Qed.

Lemma clientInput_inv id input st :
  arbiter_inv (seats st) (drivers st) →
  arbiter_inv (seats (clientInput id input st).1) (drivers (clientInput id input st).1).
Proof.
  intros HI. unfold clientInput.
  destruct (State.players st !! id) as [pl|] eqn:Hpl; [|done].
  unfold seats at 1, drivers at 1. simpl.
  by rewrite (fmap_insert_same occ _ _ pl).
Qed.

Lemma enterVehicle_inv id player carId st :
  State.players st !! id = Some player →
  arbiter_inv (seats st) (drivers st) →
  arbiter_inv (seats (enterVehicle id player carId st))
              (drivers (enterVehicle id player carId st)).
Proof.
  intros Hpl HI. unfold enterVehicle.
  destruct (State.cars st !! carId) as [car|] eqn:Hcar; [|done].
  destruct (Js.truthy_str (Car.dId car)) eqn:Ht; simpl; [done|].
  pose proof (drivers_lookup _ _ _ Hcar) as HC.
  pose proof (truthy_str_false_inv _ _ _ _ HI HC Ht) as Hnone.
  unfold seats at 1, drivers at 1. simpl. rewrite !fmap_insert. simpl.
  apply (inv_enter _ _ _ (occ player)); [done| |].
  - by apply seats_lookup.
  - rewrite <- Hnone. by apply drivers_lookup.
Qed.

Lemma is_driver_true id car : is_driver id car = true → Car.dId car = Some id.
Proof.
  unfold is_driver. destruct (Car.dId car) as [d|]; [|done].
  intros H. apply String.eqb_eq in H. by subst.
Qed.

Lemma exitVehicle_inv id player st :
  State.players st !! id = Some player →
  arbiter_inv (seats st) (drivers st) →
  arbiter_inv (seats (exitVehicle id player st))
              (drivers (exitVehicle id player st)).
Proof.
  intros Hpl HI. unfold exitVehicle.
  destruct (State.cars st !! _) as [car|] eqn:Hcar; [|done].
  destruct (is_driver id car) eqn:Hdrv; [|done].
  apply is_driver_true in Hdrv.
  unfold seats at 1, drivers at 1. simpl. rewrite !fmap_insert. simpl.
  apply (inv_leave _ _ _ (occ player)); [done| |].
  - by apply seats_lookup.
  - rewrite <- Hdrv. by apply drivers_lookup.
Qed.

Lemma clientAction_inv id action st :
  arbiter_inv (seats st) (drivers st) →
  arbiter_inv (seats (clientAction id action st).1)
              (drivers (clientAction id action st).1).
Proof.
  intros HI. unfold clientAction.
  destruct (State.players st !! id) as [pl|] eqn:Hpl; [|done].
  destruct action; simpl; [by apply enterVehicle_inv|by apply exitVehicle_inv|done..].
Qed.

Lemma disconnect_inv id st :
  arbiter_inv (seats st) (drivers st) →
  arbiter_inv (seats (disconnect id st)) (drivers (disconnect id st)).
Proof.
  intros HI. unfold disconnect, seats at 1, drivers at 1. simpl.
  rewrite fmap_delete.
  destruct (State.players st !! id) as [pl|] eqn:Hpl.
  - pose proof (seats_lookup _ _ _ Hpl) as HP. unfold occ in HP.
    destruct (Player.d pl) eqn:Hd.
    + destruct (inv_seat _ _ HI _ _ HP) as (carId & Hv & HC).
      rewrite Hv. simpl. unfold drivers in HC. rewrite lookup_fmap in HC.
      destruct (State.cars st !! carId) as [car|] eqn:Hcar; [|done].
      rewrite fmap_insert. simpl. apply inv_delete_driver; [done|].
      rewrite <- Hv. exact HP.
    + apply inv_delete_idle; [done|]. intros v Hv. unfold seats in HP. congruence.
  - apply inv_delete_idle; [done|]. intros v. unfold seats.
    by rewrite lookup_fmap, Hpl.
Qed.

Lemma initialState_inv : arbiter_inv (seats initialState) (drivers initialState).
Proof.
  unfold seats, drivers, initialState. simpl.
  rewrite fmap_empty, map_fmap_singleton. simpl. split.
  - intros carId o H. apply lookup_singleton_Some in H. by destruct H.
  - apply lookup_empty.
  - intros carId id H. apply lookup_singleton_Some in H. by destruct H.
  - intros id v H. by rewrite lookup_empty in H.
Qed.

Lemma reachable_inv st :
  reachable st → arbiter_inv (seats st) (drivers st).
Proof.
  induction 1 as [|st ev _ IH Hadm].
  - apply initialState_inv.
  - destruct ev; simpl in *.
    + destruct Hadm. by apply connection_inv.
    + by apply clientInput_inv.
    + by apply clientAction_inv.
    + by apply disconnect_inv.
    + by apply simulatePhysics_inv.
Qed.

Lemma inv_occupancy_ok st :
  arbiter_inv (seats st) (drivers st) → occupancy_ok st.
Proof.
  intros HI carId car Hcar.
  pose proof (drivers_lookup _ _ _ Hcar) as HC.
  assert (Hiff : ∀ id, Car.dId car = Some id ↔ references st id carId).
  { intros id. rewrite references_seats. split.
    - intros Hd. apply (inv_driver _ _ HI). by rewrite HC, Hd.
    - intros HP. destruct (inv_seat _ _ HI _ _ HP) as (c & [= <-] & Hc).
      rewrite HC in Hc. by injection Hc. }
  split; [done|]. unfold has_driver. split.
  - intros Ht. destruct (truthy_str_Some _ Ht) as (d & Hd & _).
    exists d. split; [by apply Hiff|].
    intros id' Hr. apply Hiff in Hr. congruence.
  - intros (id & Hr & _). apply Hiff in Hr. rewrite Hr. simpl.
    apply negb_true_iff, String.eqb_neq. intros ->.
    rewrite Hr in HC. apply (inv_driver _ _ HI) in HC.
    by rewrite (inv_noempty _ _ HI) in HC.
Qed.


(** ** Reconciliation *)

Section ReconciliationFacts.
Variable update : option R → Input.t → Local.t → Local.t.

(** The splice-or-replay loop drops exactly the acknowledged entries and
    applies the others in order. *)
Lemma replay_spec acked pending pl :
  replay update acked pending pl
  = (applyAll update (unacked acked pending) pl, unacked acked pending).
Proof.
  revert pl. induction pending as [|input rest IH]; intros pl; simpl.
  - reflexivity.
  - unfold unacked. rewrite filter_cons.
    destruct (Js.le_opt (Input.sequence input) acked) eqn:Hle.
    + rewrite decide_False by done. apply IH.
    + rewrite decide_True by done. rewrite IH. reflexivity.
Qed.

(** When the guard of step 2 passes and the error exceeds the threshold, the
    local player is the authoritative baseline with the unacknowledged
    commands applied in order, and the acknowledged ones are gone. *)
Lemma reconcile_correction snapshot localPlayer pending view :
  Local.isDriving localPlayer = false →
  Js.truthy_num (Local.inputSequence localPlayer) = true →
  Js.truthy_num (Snapshot.lastProcessedInput snapshot) = true →
  Snapshot.players snapshot !! Local.id localPlayer = Some view →
  distanceTo (Local.position localPlayer) (PlayerView.p view) > 1.0 →
  reconcile update snapshot localPlayer pending
  = (applyAll update
       (unacked (Snapshot.lastProcessedInput snapshot) pending)
       (Local.snap (Vec3.mk (Vec3.x (PlayerView.p view)) (Vec3.y (PlayerView.p view))
                            (Vec3.z (PlayerView.p view)))
                   (PlayerView.y view) localPlayer),
     unacked (Snapshot.lastProcessedInput snapshot) pending).
Proof.
  intros Hd Hseq Hack Hview Herr. unfold reconcile.
  rewrite Hd, Hseq, Hack, Hview. simpl.
  apply gtb_true in Herr.
  change (distanceTo (Local.position localPlayer)
            (Vec3.mk (Vec3.x (PlayerView.p view)) (Vec3.y (PlayerView.p view))
                     (Vec3.z (PlayerView.p view))))
    with (distanceTo (Local.position localPlayer) (PlayerView.p view)).
  rewrite Herr. apply replay_spec.
Qed.

(** Without the top-level property the guard of step 2 fails. *)
Lemma reconcile_unacknowledged snapshot localPlayer pending :
  Snapshot.lastProcessedInput snapshot = None →
  reconcile update snapshot localPlayer pending = (localPlayer, pending).
Proof.
  intros H. unfold reconcile. rewrite H. simpl.
  by rewrite andb_false_r.
Qed.

Lemma reconcile_within snapshot localPlayer pending view :
  Snapshot.players snapshot !! Local.id localPlayer = Some view →
  distanceTo (Local.position localPlayer) (PlayerView.p view) <= 1.0 →
  reconcile update snapshot localPlayer pending = (localPlayer, pending).
Proof.
  intros Hview Herr. unfold reconcile. rewrite Hview.
  apply gtb_false in Herr.
  change (distanceTo (Local.position localPlayer)
            (Vec3.mk (Vec3.x (PlayerView.p view)) (Vec3.y (PlayerView.p view))
                     (Vec3.z (PlayerView.p view))))
    with (distanceTo (Local.position localPlayer) (PlayerView.p view)).
  rewrite Herr. by destruct (_ && _).
Qed.

Lemma handleSnapshot_unacknowledged snapshot c :
  Snapshot.lastProcessedInput snapshot = None →
  Client.localPlayer (handleSnapshot update snapshot c) = Client.localPlayer c
  ∧ Client.pendingInputs (handleSnapshot update snapshot c)
    = Client.pendingInputs c.
Proof.
  intros Hnone. unfold handleSnapshot.
  destruct (Client.localPlayer c) as [lp|] eqn:Hlp; [|by rewrite Hlp].
  rewrite reconcile_unacknowledged by done. done.
Qed.

Lemma handleSnapshot_within snapshot c localPlayer view :
  Client.localPlayer c = Some localPlayer →
  Snapshot.players snapshot !! Local.id localPlayer = Some view →
  distanceTo (Local.position localPlayer) (PlayerView.p view) <= 1.0 →
  Client.localPlayer (handleSnapshot update snapshot c) = Some localPlayer
  ∧ Client.pendingInputs (handleSnapshot update snapshot c)
    = Client.pendingInputs c.
Proof.
  intros Hlp Hview Herr. unfold handleSnapshot. rewrite Hlp.
  rewrite (reconcile_within _ _ _ view); done.
Qed.

End ReconciliationFacts.

(** C1. The snapshot [gameLoop] builds carries no top-level
    [lastProcessedInput], so [handleSnapshot] never reconciles: at a drift of
    ten units the predicted position stays, nothing is discarded from the
    pending inputs and nothing is replayed. *)
Theorem drift_not_reconciled (update : option R → Input.t → Local.t → Local.t) :
  let snapshot := makeSnapshot 1000 driftState in
  let c' := handleSnapshot update snapshot driftClient in
  (PlayerView.p <$> Snapshot.players snapshot !! "p1") = Some (Vec3.mk 10 0 0)
  ∧ distanceTo (Vec3.mk 0 0 0) (Vec3.mk 10 0 0) > 1.0
  ∧ Client.localPlayer c' = Client.localPlayer driftClient
  ∧ Client.pendingInputs c' = [driftCommand 1; driftCommand 2]
  ∧ unacked (Some 1%Z) (Client.pendingInputs driftClient) = [driftCommand 2].
Proof.
  intros snapshot c'. split; [reflexivity|]. split.
  - unfold distanceTo. simpl.
    replace ((0 - 10) * (0 - 10) + (0 - 0) * (0 - 0) + (0 - 0) * (0 - 0))
      with (10 * 10) by lra.
    rewrite sqrt_sq_pos; lra.
  - subst c' snapshot.
    destruct (handleSnapshot_unacknowledged update
                (makeSnapshot 1000 driftState) driftClient eq_refl) as [-> ->].
    repeat split; reflexivity.
Qed.

(** Whatever the server state and the clocks, a snapshot made by [gameLoop]
    leaves the local player and the pending inputs as they were. *)
Lemma gameLoop_snapshot_never_reconciles update now dateNow srv c :
  let snapshot := (gameLoop now dateNow srv).2 in
  Client.localPlayer (handleSnapshot update snapshot c) = Client.localPlayer c
  ∧ Client.pendingInputs (handleSnapshot update snapshot c)
    = Client.pendingInputs c.
Proof.
  apply handleSnapshot_unacknowledged. reflexivity.
Qed.

Lemma near_distance : distanceTo (Vec3.mk 5 0 0) (Vec3.mk 5.5 0 0) <= 1.0.
Proof.
  unfold distanceTo. simpl.
  replace ((5 - 5.5) * (5 - 5.5) + (0 - 0) * (0 - 0) + (0 - 0) * (0 - 0))
    with (0.5 * 0.5) by lra.
  rewrite sqrt_sq_pos; lra.
Qed.

(** C5, as stated, fails: within the threshold the acknowledged input 1 stays
    in the pending buffer. *)
Lemma within_threshold_not_trimmed :
  distanceTo (Vec3.mk 5 0 0) (Vec3.mk 5.5 0 0) <= 1.0
  ∧ unacked (Some 1%Z) (Client.pendingInputs nearClient) = []
  ∧ (∀ update,
       Client.pendingInputs (handleSnapshot update nearSnapshot nearClient)
       = [driftCommand 1]).
Proof.
  split; [apply near_distance|]. split; [reflexivity|].
  intros update.
  apply (handleSnapshot_within update nearSnapshot nearClient
           (Local.mk "p1" (Vec3.mk 5 0 0) 0 false None (Some 1%Z))
           (PlayerView.mk (Vec3.mk 5.5 0 0) 0 100 false None (Some 1%Z)));
    [reflexivity|reflexivity|apply near_distance].
Qed.

(** C5, amended. When the local player's positional error is within the
    threshold, [handleSnapshot] changes neither the local player (no snap)
    nor the pending-input buffer (nothing is trimmed). *)
Theorem within_threshold_untouched
    (update : option R → Input.t → Local.t → Local.t) snapshot c localPlayer view :
  Client.localPlayer c = Some localPlayer →
  Snapshot.players snapshot !! Local.id localPlayer = Some view →
  distanceTo (Local.position localPlayer) (PlayerView.p view) <= 1.0 →
  Client.localPlayer (handleSnapshot update snapshot c) = Some localPlayer
  ∧ Client.pendingInputs (handleSnapshot update snapshot c)
    = Client.pendingInputs c.
Proof.
  apply handleSnapshot_within.
Qed.

(** The scenario of the spec: the client stays as it is. *)
Lemma within_threshold_untouched_witness :
  Client.localPlayer (handleSnapshot (fun _ _ pl => pl) nearSnapshot nearClient)
  = Client.localPlayer nearClient
  ∧ Client.pendingInputs (handleSnapshot (fun _ _ pl => pl) nearSnapshot nearClient)
    = Client.pendingInputs nearClient.
Proof.
  apply (within_threshold_untouched (fun _ _ pl => pl) nearSnapshot nearClient
           (Local.mk "p1" (Vec3.mk 5 0 0) 0 false None (Some 1%Z))
           (PlayerView.mk (Vec3.mk 5.5 0 0) 0 100 false None (Some 1%Z))).
  - reflexivity.
  - reflexivity.
  - apply near_distance.
Defined.

(** ** The simulator: player branch *)

Lemma applyInput_set_pInputs deltaTime input q player :
  applyInput deltaTime input (Player.set_pInputs q player)
  = Player.set_pInputs q (applyInput deltaTime input player).
Proof. reflexivity. Qed.

Lemma set_pInputs_twice q q' player :
  Player.set_pInputs q (Player.set_pInputs q' player) = Player.set_pInputs q player.
Proof. reflexivity. Qed.

Lemma set_pInputs_same player :
  Player.set_pInputs (Player.pInputs player) player = player.
Proof. by destruct player. Qed.

Lemma foldl_applyInput_set_pInputs deltaTime q cmds player :
  foldl (fun acc input => applyInput deltaTime input acc)
        (Player.set_pInputs q player) cmds
  = Player.set_pInputs q
      (foldl (fun acc input => applyInput deltaTime input acc) player cmds).
Proof.
  revert player. induction cmds as [|i r IH]; intros player; simpl.
  - reflexivity.
  - rewrite applyInput_set_pInputs. apply IH.
Qed.

(** The loop is a left fold of its body over the queue, oldest first, and
    leaves the queue empty. *)
Lemma processInputs_foldl deltaTime q player :
  processInputs deltaTime q player
  = Player.set_pInputs []
      (foldl (fun acc input => applyInput deltaTime input acc) player q).
Proof.
  revert player. induction q as [|input rest IH]; intros player; simpl.
  - reflexivity.
  - rewrite IH, applyInput_set_pInputs, foldl_applyInput_set_pInputs.
    reflexivity.
Qed.

Lemma playerPhase_lookup deltaTime st id :
  State.players (playerPhase deltaTime st) !! id
  = playerTick deltaTime <$> State.players st !! id.
Proof. unfold playerPhase. simpl. apply lookup_fmap. Qed.

Lemma pInputs_playerTick_idle deltaTime player :
  Player.d player = false → Player.pInputs (playerTick deltaTime player) = [].
Proof.
  intros Hd. unfold playerTick. rewrite Hd, processInputs_foldl. reflexivity.
Qed.

(** ** The simulator: car branch *)

(** A car step leaves a player with an empty queue as it is. *)
Lemma carStep_player_idle deltaTime carId st id player :
  State.players st !! id = Some player → Player.pInputs player = [] →
  State.players (carStep deltaTime carId st) !! id = Some player.
Proof.
  intros Hpl Hq. unfold carStep.
  destruct (State.cars st !! carId) as [car|]; [|done].
  destruct (negb _); [done|].
  destruct (State.players st !! Js.key (Car.dId car)) as [driver|] eqn:Hdrv;
    [|done].
  simpl. destruct (decide (Js.key (Car.dId car) = id)) as [Heq|Hne].
  - rewrite Heq in *. rewrite lookup_insert_eq.
    assert (driver = player) as -> by congruence.
    rewrite Hq. simpl. rewrite <- Hq. by rewrite set_pInputs_same.
  - by rewrite lookup_insert_ne.
Qed.

Lemma carSteps_player_idle deltaTime l st id player :
  State.players st !! id = Some player → Player.pInputs player = [] →
  State.players (foldl (fun acc carId => carStep deltaTime carId acc) st l) !! id
  = Some player.
Proof.
  revert st. induction l as [|carId l IH]; intros st Hpl Hq; simpl; [done|].
  apply IH; [|done]. by apply carStep_player_idle.
Qed.

(** A car step writes no car but its own. *)
Lemma carStep_other_car deltaTime carId st carId' :
  carId ≠ carId' →
  State.cars (carStep deltaTime carId st) !! carId' = State.cars st !! carId'.
Proof.
  intros Hne. unfold carStep.
  destruct (State.cars st !! carId) as [car|]; [|done].
  destruct (negb _); [done|].
  destruct (State.players st !! Js.key (Car.dId car)) as [driver|];
    simpl; by rewrite lookup_insert_ne.
Qed.

Lemma carSteps_other_car deltaTime l st carId' :
  carId' ∉ l →
  State.cars (foldl (fun acc carId => carStep deltaTime carId acc) st l) !! carId'
  = State.cars st !! carId'.
Proof.
  revert st. induction l as [|carId l IH]; intros st Hnin; simpl; [done|].
  apply not_elem_of_cons in Hnin as [Hne Hnin].
  rewrite IH by done. by apply carStep_other_car.
Qed.

(** The step of a car whose connected driver has nothing queued. *)
Lemma carStep_idle_driver deltaTime carId st car d driver :
  State.cars st !! carId = Some car → Car.dId car = Some d → d ≠ "" →
  State.players st !! d = Some driver → Player.pInputs driver = [] →
  State.cars (carStep deltaTime carId st) !! carId
  = Some (driveCar deltaTime Input.neutral car).
Proof.
  intros Hcar Hd Hne Hdrv Hq. unfold carStep. rewrite Hcar, Hd. simpl.
  apply String.eqb_neq in Hne. rewrite Hne. simpl.
  rewrite Hdrv, Hq. simpl. by rewrite lookup_insert_eq.
Qed.

Lemma carSteps_idle_driver deltaTime l st carId car d driver :
  NoDup l → carId ∈ l →
  State.cars st !! carId = Some car → Car.dId car = Some d → d ≠ "" →
  State.players st !! d = Some driver → Player.pInputs driver = [] →
  State.cars (foldl (fun acc carId => carStep deltaTime carId acc) st l) !! carId
  = Some (driveCar deltaTime Input.neutral car).
Proof.
  intros Hnd. revert st. induction Hnd as [|c l Hnin Hnd IH];
    intros st Hin Hcar Hd Hne Hdrv Hq; simpl.
  - by apply elem_of_nil in Hin.
  - destruct (decide (c = carId)) as [->|Hc].
    + rewrite carSteps_other_car by done.
      by eapply carStep_idle_driver.
    + apply elem_of_cons in Hin as [Heq|Hin]; [congruence|].
      apply IH; try done.
      * by rewrite carStep_other_car.
      * by apply carStep_player_idle.
Qed.

Lemma carPhase_keys st carId car :
  State.cars st !! carId = Some car →
  carId ∈ elements (dom (State.cars st)).
Proof. intros H. apply elem_of_elements, elem_of_dom. by exists car. Qed.

(** With a positive [deltaTime] the check compares the squared step with the
    square of the distance allowed. *)
Lemma antiTeleport_fast deltaTime lastP p :
  0 < deltaTime →
  (MAX_PLAYER_SPEED * 2 * deltaTime) * (MAX_PLAYER_SPEED * 2 * deltaTime)
  < (Vec3.x p - LastP.x lastP) * (Vec3.x p - LastP.x lastP)
    + (Vec3.z p - LastP.z lastP) * (Vec3.z p - LastP.z lastP) →
  antiTeleport deltaTime lastP p = true.
Proof.
  intros Hdt Hlt. unfold antiTeleport. cbv zeta. rewrite gtb_div_pos by done.
  apply gtb_true. unfold MAX_PLAYER_SPEED in *.
  set (c := 10.5 * 2 * deltaTime) in *.
  assert (0 <= c) by (unfold c; lra).
  rewrite <- (sqrt_square c) by done.
  apply sqrt_lt_1; [nra|nra|done].
Qed.

Lemma antiTeleport_slow deltaTime lastP p :
  0 < deltaTime →
  (Vec3.x p - LastP.x lastP) * (Vec3.x p - LastP.x lastP)
  + (Vec3.z p - LastP.z lastP) * (Vec3.z p - LastP.z lastP)
  <= (MAX_PLAYER_SPEED * 2 * deltaTime) * (MAX_PLAYER_SPEED * 2 * deltaTime) →
  antiTeleport deltaTime lastP p = false.
Proof.
  intros Hdt Hle. unfold antiTeleport. cbv zeta. rewrite gtb_div_pos by done.
  apply gtb_false. unfold MAX_PLAYER_SPEED in *.
  set (c := 10.5 * 2 * deltaTime) in *.
  assert (0 <= c) by (unfold c; lra).
  rewrite <- (sqrt_square c) by done.
  apply sqrt_le_1; [|nra|done].
  apply Rplus_le_le_0_compat; apply Rle_0_sqr.
Qed.

Lemma lastP_eta l : LastP.mk (LastP.x l) (LastP.z l) = l.
Proof. by destruct l. Qed.

(** *** The ground rule *)

Lemma ltb_false x y : Js.ltb x y = false ↔ y <= x.
Proof. unfold Js.ltb. destruct (Rlt_dec x y); split; (done || lra). Qed.

Lemma movePlayer_ground deltaTime input player :
  Vec3.y (Player.p player) = 0 →
  Vec3.y (movePlayer deltaTime input player) = 0.
Proof.
  intros Hy. unfold movePlayer. simpl. rewrite Hy.
  replace (Js.gtb 0 0) with false by (symmetry; apply gtb_false; lra).
  replace (Js.ltb 0 0) with false by (symmetry; apply ltb_false; lra).
  reflexivity.
Qed.

Lemma applyInput_height deltaTime input player :
  Vec3.y (Player.p (applyInput deltaTime input player))
  = Vec3.y (movePlayer deltaTime input player).
Proof. unfold applyInput. simpl. by destruct (antiTeleport _ _ _). Qed.

Lemma foldl_applyInput_ground deltaTime q player :
  Vec3.y (Player.p player) = 0 →
  Vec3.y (Player.p (foldl (fun acc input => applyInput deltaTime input acc)
                          player q)) = 0.
Proof.
  revert player. induction q as [|input rest IH]; intros player Hy; simpl.
  - done.
  - apply IH. rewrite applyInput_height. by apply movePlayer_ground.
Qed.

Lemma playerTick_ground deltaTime player :
  (Player.d player = false → Vec3.y (Player.p player) = 0) →
  Player.d (playerTick deltaTime player) = false →
  Vec3.y (Player.p (playerTick deltaTime player)) = 0.
Proof.
  intros Hy. pose proof (occ_playerTick deltaTime player) as Hocc.
  injection Hocc as Hd _. rewrite Hd. intros Hidle.
  unfold playerTick. rewrite Hidle, processInputs_foldl. simpl.
  by apply foldl_applyInput_ground, Hy.
Qed.

(** A car step changes nothing of a player but the queue. *)
Lemma carStep_footing deltaTime carId st :
  footing <$> State.players (carStep deltaTime carId st)
  = footing <$> State.players st.
Proof.
  unfold carStep.
  destruct (State.cars st !! carId) as [car|]; [|done].
  destruct (negb _); [done|].
  destruct (State.players st !! Js.key (Car.dId car)) as [driver|] eqn:Hdrv;
    [|done].
  simpl. by rewrite (fmap_insert_same footing _ _ driver).
Qed.

Lemma grounded_footing st st' :
  footing <$> State.players st' = footing <$> State.players st →
  grounded st → grounded st'.
Proof.
  intros Heq Hg id pl' Hpl' Hd.
  assert (Hl : (footing <$> State.players st') !! id = Some (footing pl'))
    by (by rewrite lookup_fmap, Hpl').
  rewrite Heq, lookup_fmap in Hl.
  destruct (State.players st !! id) as [pl|] eqn:Hpl; [|done].
  injection Hl as Hd' Hy. rewrite <- Hy. apply (Hg id pl Hpl). congruence.
Qed.

Lemma carSteps_footing deltaTime l st :
  footing <$> State.players
                (foldl (fun acc carId => carStep deltaTime carId acc) st l)
  = footing <$> State.players st.
Proof.
  revert st. induction l as [|carId l IH]; intros st; simpl; [done|].
  by rewrite IH, carStep_footing.
Qed.

Lemma simulatePhysics_grounded deltaTime st :
  grounded st → grounded (simulatePhysics deltaTime st).
Proof.
  intros Hg. unfold simulatePhysics, carPhase.
  eapply grounded_footing; [apply carSteps_footing|].
  intros id pl'. rewrite playerPhase_lookup.
  destruct (State.players st !! id) as [pl|] eqn:Hpl; [|done].
  intros [= <-]. apply playerTick_ground. exact (Hg id pl Hpl).
Qed.

Lemma handle_grounded ev st : grounded st → grounded (handle ev st).
Proof.
  intros Hg. destruct ev as [id rx rz|id input|id action|id|deltaTime]; simpl.
  - intros id' pl. unfold connection. simpl. rewrite lookup_insert.
    case_decide; [by intros [= <-]|apply Hg].
  - unfold clientInput.
    destruct (State.players st !! id) as [player|] eqn:Hpl; [|done].
    eapply grounded_footing; [|done]. simpl.
    by rewrite (fmap_insert_same footing _ _ player).
  - unfold clientAction.
    destruct (State.players st !! id) as [player|] eqn:Hpl; [|done].
    destruct action as [carId| | |]; simpl; try done.
    + unfold enterVehicle. destruct (State.cars st !! carId) as [car|]; [|done].
      destruct (negb _); [|done].
      intros id' pl. simpl. rewrite lookup_insert.
      case_decide; [by intros [= <-]|apply Hg].
    + unfold exitVehicle. destruct (State.cars st !! _) as [car|]; [|done].
      destruct (is_driver id car); [|done].
      intros id' pl. simpl. rewrite lookup_insert.
      case_decide; [by intros [= <-]|apply Hg].
  - intros id' pl. unfold disconnect. simpl. rewrite lookup_delete.
    case_decide; [done|apply Hg].
  - by apply simulatePhysics_grounded.
Qed.

(** In every state the server reaches, the players on foot are at height 0,
    where the ground rule keeps them. *)
Lemma reachable_grounded st : reachable st → grounded st.
Proof.
  induction 1 as [|st ev _ IH _].
  - intros id pl. unfold initialState. simpl. by rewrite lookup_empty.
  - by apply handle_grounded.
Qed.

(** *** The sanity check *)

(** C7. When the sanity check fires for an input, the player's horizontal
    position is put back to the last accepted one ([lastP], itself unchanged),
    the input still counts as processed and no other field changes except the
    vertical coordinate given by the ground rule, which for a player on the
    ground is 0 as before; only that movement is undone: the loop goes on and
    applies the rest of the queue, in order, from that player. *)
Theorem antiTeleport_reverts deltaTime input rest player :
  antiTeleport deltaTime (Player.lastP player)
               (movePlayer deltaTime input player) = true →
  applyInput deltaTime input player = reverted deltaTime input player
  ∧ (Vec3.y (Player.p player) = 0 →
     Player.p (reverted deltaTime input player)
     = Vec3.mk (LastP.x (Player.lastP player)) 0 (LastP.z (Player.lastP player)))
  ∧ processInputs deltaTime (input :: rest) player
    = Player.set_pInputs []
        (foldl (fun acc i => applyInput deltaTime i acc)
               (reverted deltaTime input player) rest).
Proof.
  intros Hfire.
  assert (Happly : applyInput deltaTime input player
                   = reverted deltaTime input player).
  { unfold applyInput, reverted. rewrite Hfire. simpl. by rewrite lastP_eta. }
  split; [done|]. split.
  - intros Hy. unfold reverted. cbn [Player.p]. by rewrite movePlayer_ground.
  - simpl. rewrite processInputs_foldl, applyInput_set_pInputs, Happly.
    by rewrite foldl_applyInput_set_pInputs.
Qed.

(** The stranded player is put back to the origin, and the second input
    is applied from there. *)
Lemma antiTeleport_reverts_witness :
  applyInput 1 Input.neutral strandedPlayer
  = reverted 1 Input.neutral strandedPlayer
  ∧ (Vec3.y (Player.p strandedPlayer) = 0 →
     Player.p (reverted 1 Input.neutral strandedPlayer) = Vec3.mk 0 0 0)
  ∧ processInputs 1 [Input.neutral; Input.neutral] strandedPlayer
    = Player.set_pInputs []
        (foldl (fun acc i => applyInput 1 i acc)
               (reverted 1 Input.neutral strandedPlayer) [Input.neutral]).
Proof.
  apply (antiTeleport_reverts 1 Input.neutral [Input.neutral] strandedPlayer).
  apply antiTeleport_fast; [lra|]. unfold MAX_PLAYER_SPEED. simpl. nra.
Defined.

Lemma reverted_position deltaTime input player :
  Vec3.x (Player.p (reverted deltaTime input player))
  = LastP.x (Player.lastP player)
  ∧ Vec3.z (Player.p (reverted deltaTime input player))
    = LastP.z (Player.lastP player)
  ∧ Player.lastP (reverted deltaTime input player) = Player.lastP player
  ∧ Player.lastProcessedInput (reverted deltaTime input player)
    = Input.sequence input.
Proof. done. Qed.

(** The player branch of a tick, seen after the whole tick. *)
Lemma simulatePhysics_idle_player deltaTime st id player :
  State.players st !! id = Some player → Player.d player = false →
  State.players (simulatePhysics deltaTime st) !! id
  = Some (Player.set_pInputs []
            (foldl (fun acc input => applyInput deltaTime input acc)
                   player (Player.pInputs player))).
Proof.
  intros Hpl Hd. unfold simulatePhysics, carPhase.
  rewrite <- processInputs_foldl.
  apply carSteps_player_idle.
  - rewrite playerPhase_lookup, Hpl. simpl. unfold playerTick. by rewrite Hd.
  - by rewrite processInputs_foldl.
Qed.

Lemma lastProcessedInput_foldl deltaTime q player :
  Player.lastProcessedInput
    (foldl (fun acc input => applyInput deltaTime input acc) player q)
  = from_option Input.sequence (Player.lastProcessedInput player) (last q).
Proof.
  induction q as [|input q IH] using rev_ind; [done|].
  by rewrite foldl_app, last_snoc.
Qed.

(** C4, amended. A tick leaves every non-driving player with an empty queue
    and with every queued command applied once, oldest first, each by its own
    run of the loop body with the tick's [deltaTime] (the wall-clock interval
    passed to [simulatePhysics], not the command's field); the sequence of
    the last command is the one acknowledged. *)
Theorem idle_player_drained deltaTime st id player :
  State.players st !! id = Some player → Player.d player = false →
  ∃ player',
    State.players (simulatePhysics deltaTime st) !! id = Some player'
    ∧ player' = Player.set_pInputs []
                  (foldl (fun acc input => applyInput deltaTime input acc)
                         player (Player.pInputs player))
    ∧ Player.pInputs player' = []
    ∧ Player.lastProcessedInput player'
      = from_option Input.sequence (Player.lastProcessedInput player)
                    (last (Player.pInputs player)).
Proof.
  intros Hpl Hd. eexists. split; [by apply simulatePhysics_idle_player|].
  split; [done|]. split; [done|].
  apply (lastProcessedInput_foldl deltaTime (Player.pInputs player) player).
Qed.

(** The walking player after a tick of 33 ms. *)
Lemma idle_player_drained_witness :
  ∃ player',
    State.players (simulatePhysics 0.033 walkState) !! "p1" = Some player'
    ∧ player' = Player.set_pInputs []
                  (foldl (fun acc input => applyInput 0.033 input acc)
                         walkPlayer (Player.pInputs walkPlayer))
    ∧ Player.pInputs player' = []
    ∧ Player.lastProcessedInput player'
      = from_option Input.sequence (Player.lastProcessedInput walkPlayer)
                    (last (Player.pInputs walkPlayer)).
Proof.
  apply (idle_player_drained 0.033 walkState "p1" walkPlayer); reflexivity.
Defined.

(** One forward step from [walkPlayer] with a positive [deltaTime] moves the
    player by [1.05 * deltaTime] along -z. *)
Lemma walk_step_z deltaTime q :
  0 < deltaTime →
  Vec3.z (Player.p (applyInput deltaTime walkCommand
                      (Player.set_pInputs q walkPlayer)))
  = - (1.05 * deltaTime).
Proof.
  intros Hdt. unfold applyInput.
  assert (Hx : Vec3.x (movePlayer deltaTime walkCommand
                         (Player.set_pInputs q walkPlayer)) = 0).
  { unfold movePlayer, MAX_PLAYER_SPEED. simpl. rewrite sin_0, cos_0. lra. }
  assert (Hz : Vec3.z (movePlayer deltaTime walkCommand
                         (Player.set_pInputs q walkPlayer))
               = - (1.05 * deltaTime)).
  { unfold movePlayer, MAX_PLAYER_SPEED. simpl. rewrite sin_0, cos_0. lra. }
  rewrite antiTeleport_slow; [by rewrite Hz|done|].
  rewrite Hx, Hz. unfold MAX_PLAYER_SPEED. simpl. nra.
Qed.

Lemma walk_tick_z deltaTime :
  0 < deltaTime →
  (fun pl => Vec3.z (Player.p pl))
    <$> State.players (simulatePhysics deltaTime walkState) !! "p1"
  = Some (- (1.05 * deltaTime)).
Proof.
  intros Hdt.
  rewrite (simulatePhysics_idle_player deltaTime walkState "p1" walkPlayer)
    by reflexivity.
  simpl. f_equal. apply (walk_step_z deltaTime [walkCommand] Hdt).
Qed.

(** C4, as stated, fails: the command was sent with [deltaTime = 0.016], the
    tick runs with [0.033], and the player moves by the tick's interval. *)
Lemma own_deltaTime_not_used :
  (fun pl => Vec3.z (Player.p pl))
    <$> State.players (simulatePhysics 0.033 walkState) !! "p1"
  = Some (- (1.05 * 0.033))
  ∧ (fun pl => Vec3.z (Player.p pl))
      <$> processInputsOwnDelta (Player.pInputs walkPlayer) walkPlayer
    = Some (- (1.05 * 0.016))
  ∧ State.players (simulatePhysics 0.033 walkState) !! "p1"
    ≠ processInputsOwnDelta (Player.pInputs walkPlayer) walkPlayer.
Proof.
  assert (H1 := walk_tick_z 0.033 ltac:(lra)).
  assert (H2 : (fun pl => Vec3.z (Player.p pl))
                 <$> processInputsOwnDelta (Player.pInputs walkPlayer) walkPlayer
               = Some (- (1.05 * 0.016))).
  { simpl. f_equal. apply (walk_step_z 0.016 []). lra. }
  split; [done|]. split; [done|].
  intros Heq. rewrite Heq, H2 in H1. injection H1. lra.
Qed.




(** ** Handlers *)

(** C6. [enterVehicle] for a car whose [dId] is set changes nothing and lets
    nothing out: the state, and with it the car's driver and the requesting
    player's [d] and [vId], is the one before. *)
Theorem enter_occupied_noop st id carId car d :
  State.cars st !! carId = Some car → Car.dId car = Some d → d ≠ "" →
  clientAction id (EnterVehicle carId) st = (st, []).
Proof.
  intros Hcar Hd Hne. unfold clientAction.
  destruct (State.players st !! id) as [player|]; [|done].
  unfold enterVehicle. rewrite Hcar, Hd. simpl.
  apply String.eqb_neq in Hne. by rewrite Hne.
Qed.

(** On a free car the request of a connected player succeeds. *)
Lemma enter_free_succeeds st id player carId car :
  State.players st !! id = Some player →
  State.cars st !! carId = Some car → Car.dId car = None →
  (clientAction id (EnterVehicle carId) st).1
  = State.mk
      (<[id := Player.set_p (Car.p car)
                 (Player.set_driving true (Some carId) player)]>
         (State.players st))
      (<[carId := Car.set_dId (Some id) car]> (State.cars st))
      (State.room st).
Proof.
  intros Hpl Hcar Hd. unfold clientAction. rewrite Hpl. simpl.
  unfold enterVehicle. rewrite Hcar, Hd. simpl. by destruct (Car.p car).
Qed.

(** [p2] asks for [car1], which [p1] drives. *)
Lemma enter_occupied_noop_witness :
  (Car.dId <$> State.cars raceState !! "car1") = Some (Some "p1")
  ∧ clientAction "p2" (EnterVehicle "car1") raceState = (raceState, []).
Proof.
  split; [reflexivity|].
  apply (enter_occupied_noop raceState "p2" "car1"
           (Car.set_dId (Some "p1") car1) "p1");
    [reflexivity|reflexivity|discriminate].
Defined.


(** An input that does not jump is queued in the same way, without the
    warning. *)
Lemma clientInput_queued st id player input :
  State.players st !! id = Some player →
  (clientInput id input st).1
  = State.set_players
      (<[id := Player.set_pInputs (Player.pInputs player ++ [input]) player]>
         (State.players st)) st.
Proof. intros Hpl. unfold clientInput. by rewrite Hpl. Qed.


(** The state of the scenario is one the server reaches. *)
Lemma raceState_reachable : reachable raceState.
Proof.
  apply (reach_step
           (run [Connect "p1" 0.5 0.5; Connect "p2" 0.5 0.5] initialState)
           (ClientAction "p1" (EnterVehicle "car1"))); [|exact I].
  apply (reach_step (run [Connect "p1" 0.5 0.5] initialState)
                    (Connect "p2" 0.5 0.5));
    [|split; [discriminate|reflexivity]].
  apply (reach_step initialState (Connect "p1" 0.5 0.5));
    [|split; [discriminate|reflexivity]].
  apply reach_init.
Defined.


(** ** Runs: what a tick depends on *)

Lemma foldl_applyInput_forget deltaTime q player :
  foldl (fun acc input => applyInput deltaTime input acc) player
        (forgetDeltaTime <$> q)
  = foldl (fun acc input => applyInput deltaTime input acc) player q.
Proof.
  revert player. induction q as [|input rest IH]; intros player; simpl.
  - reflexivity.
  - rewrite IH. reflexivity.
Qed.

Lemma forgetPlayer_playerTick deltaTime player :
  playerTick deltaTime (forgetPlayer player)
  = forgetPlayer (playerTick deltaTime player).
Proof.
  unfold playerTick, forgetPlayer. simpl.
  destruct (Player.d player); [done|].
  rewrite !processInputs_foldl, foldl_applyInput_forget,
    foldl_applyInput_set_pInputs.
  reflexivity.
Qed.

Lemma forgetState_playerPhase deltaTime st :
  playerPhase deltaTime (forgetState st) = forgetState (playerPhase deltaTime st).
Proof.
  unfold playerPhase, forgetState, State.set_players. simpl. f_equal.
  rewrite <- !map_fmap_compose. apply map_fmap_ext.
  intros id pl _. apply forgetPlayer_playerTick.
Qed.

Lemma head_forget q :
  default Input.neutral (head (forgetDeltaTime <$> q))
  = forgetDeltaTime (default Input.neutral (head q)).
Proof. by destruct q. Qed.

Lemma forgetState_carStep deltaTime carId st :
  carStep deltaTime carId (forgetState st)
  = forgetState (carStep deltaTime carId st).
Proof.
  unfold carStep, forgetState at 1 2 3. simpl. rewrite lookup_fmap.
  destruct (State.cars st !! carId) as [car|]; [|done]. simpl.
  destruct (negb _); [done|]. rewrite lookup_fmap.
  destruct (State.players st !! Js.key (Car.dId car)) as [driver|]; simpl.
  - unfold forgetState. simpl. rewrite !fmap_insert. f_equal.
    + f_equal. unfold forgetPlayer. simpl. by rewrite fmap_tail.
    + f_equal. by rewrite head_forget.
  - unfold forgetState. simpl. by rewrite fmap_insert.
Qed.

Lemma forgetState_carSteps deltaTime l st :
  foldl (fun acc carId => carStep deltaTime carId acc) (forgetState st) l
  = forgetState (foldl (fun acc carId => carStep deltaTime carId acc) st l).
Proof.
  revert st. induction l as [|carId l IH]; intros st; simpl; [done|].
  by rewrite forgetState_carStep, IH.
Qed.

Lemma forgetState_simulatePhysics deltaTime st :
  simulatePhysics deltaTime (forgetState st)
  = forgetState (simulatePhysics deltaTime st).
Proof.
  unfold simulatePhysics, carPhase.
  rewrite forgetState_playerPhase, forgetState_carSteps.
  do 2 f_equal. unfold forgetState. simpl. by rewrite dom_fmap_L.
Qed.

Lemma forgetState_connection id rx rz st :
  connection id rx rz (forgetState st) = forgetState (connection id rx rz st).
Proof. unfold connection, forgetState. simpl. by rewrite fmap_insert. Qed.

Lemma forgetState_clientInput id input st :
  (clientInput id (forgetDeltaTime input) (forgetState st)).1
  = forgetState (clientInput id input st).1.
Proof.
  unfold clientInput, forgetState at 1. simpl. rewrite lookup_fmap.
  destruct (State.players st !! id) as [player|]; [|done]. simpl.
  unfold forgetState, State.set_players. simpl. rewrite fmap_insert.
  do 2 f_equal. unfold forgetPlayer. simpl. by rewrite fmap_app.
Qed.

Lemma forgetState_enterVehicle id player carId st :
  enterVehicle id (forgetPlayer player) carId (forgetState st)
  = forgetState (enterVehicle id player carId st).
Proof.
  unfold enterVehicle, forgetState at 1. simpl. rewrite lookup_fmap.
  destruct (State.cars st !! carId) as [car|]; [|done]. simpl.
  destruct (negb _); [|done].
  unfold forgetState. simpl. by rewrite !fmap_insert.
Qed.

Lemma forgetState_exitVehicle id player st :
  exitVehicle id (forgetPlayer player) (forgetState st)
  = forgetState (exitVehicle id player st).
Proof.
  unfold exitVehicle, forgetState at 1. simpl. rewrite lookup_fmap.
  destruct (State.cars st !! _) as [car|]; [|done]. simpl.
  change (is_driver id (forgetCar car)) with (is_driver id car).
  destruct (is_driver id car); [|done].
  unfold forgetState. simpl. by rewrite !fmap_insert.
Qed.

Lemma forgetState_clientAction id action st :
  (clientAction id action (forgetState st)).1
  = forgetState (clientAction id action st).1.
Proof.
  unfold clientAction, forgetState at 1. simpl. rewrite lookup_fmap.
  destruct (State.players st !! id) as [player|]; [|done]. simpl.
  destruct action; simpl; try done.
  - apply forgetState_enterVehicle.
  - apply forgetState_exitVehicle.
Qed.

Lemma forgetState_disconnect id st :
  disconnect id (forgetState st) = forgetState (disconnect id st).
Proof.
  unfold disconnect, forgetState at 1. simpl. rewrite lookup_fmap.
  unfold forgetState. simpl. rewrite fmap_delete. f_equal.
  destruct (State.players st !! id) as [player|]; [|done]. simpl.
  destruct (Player.d player); [|done]. rewrite lookup_fmap.
  destruct (State.cars st !! _) as [car|]; [|done]. simpl.
  by rewrite fmap_insert.
Qed.

Lemma forgetState_handle ev st :
  handle (forgetEvent ev) (forgetState st) = forgetState (handle ev st).
Proof.
  destruct ev; simpl.
  - apply forgetState_connection.
  - apply forgetState_clientInput.
  - apply forgetState_clientAction.
  - apply forgetState_disconnect.
  - apply forgetState_simulatePhysics.
Qed.

Lemma forgetState_run evs st :
  run (forgetEvent <$> evs) (forgetState st) = forgetState (run evs st).
Proof.
  unfold run. revert st. induction evs as [|ev evs IH]; intros st; simpl.
  - done.
  - by rewrite forgetState_handle, IH.
Qed.



(** ** Interpolation of remote players *)

(** The pair the search returns is made of two neighbours of the buffer whose
    timestamps have the render time between them. *)
Lemma findBracket_Some renderTime positionBuffer p1 p2 :
  findBracket renderTime positionBuffer = Some (p1, p2) →
  ∃ i : nat, positionBuffer !! i = Some p1 ∧ positionBuffer !! S i = Some p2
       ∧ Sample.timestamp p1 <= renderTime <= Sample.timestamp p2.
Proof.
  induction positionBuffer as [|a buf IH]; [done|].
  destruct buf as [|b rest]; [done|].
  change (findBracket renderTime (a :: b :: rest))
    with (if Js.leb (Sample.timestamp a) renderTime
             && Js.geb (Sample.timestamp b) renderTime
          then Some (a, b) else findBracket renderTime (b :: rest)).
  destruct (Js.leb _ _ && Js.geb _ _) eqn:Htest.
  - intros [= <- <-]. apply andb_true_iff in Htest as [H1 H2].
    apply leb_true in H1. apply geb_true in H2. exists 0%nat. done.
  - intros H. destruct (IH H) as (i & Hi1 & Hi2 & Ht). exists (S i). done.
Qed.

Lemma fraction_bounds r t1 t2 :
  t1 < t2 → t1 <= r <= t2 → 0 <= (r - t1) / (t2 - t1) <= 1.
Proof.
  intros Hlt [H1 H2]. split.
  - apply Rmult_le_pos; [lra|]. apply Rlt_le, Rinv_0_lt_compat. lra.
  - apply (Rmult_le_reg_r (t2 - t1)); [lra|].
    unfold Rdiv. rewrite Rmult_assoc, Rinv_l by lra. lra.
Qed.

Lemma lerp_convex a b f : lerp a b f = (1 - f) * a + f * b.
Proof. unfold lerp. lra. Qed.

Lemma lerp_between a b f : 0 <= f <= 1 → between a b (lerp a b f).
Proof.
  intros [H0 H1]. unfold between, lerp, Rmin, Rmax.
  destruct (Rle_dec a b); split; nra.
Qed.


Lemma sampleBuffer_increasing : increasing sampleBuffer.
Proof.
  intros i s1 s2 H1 H2. destruct i as [|[|i]]; simpl in *.
  - injection H1 as <-. injection H2 as <-. simpl. lra.
  - discriminate.
  - discriminate.
Defined.


Lemma sampleBuffer_bracket :
  findBracket (150 - INTERPOLATION_DELAY) sampleBuffer
  = Some (Sample.mk 0 (Vec3.mk 0 0 0) 0, Sample.mk 100 (Vec3.mk 10 0 4) 1).
Proof.
  unfold sampleBuffer, findBracket, INTERPOLATION_DELAY.
  replace (Js.leb _ _) with true by (symmetry; apply leb_true; simpl; lra).
  replace (Js.geb _ _) with true by (symmetry; apply geb_true; simpl; lra).
  reflexivity.
Qed.

(** Why the timestamps have to differ: two samples with the timestamp of the
    render time are a bracketing pair of range zero, and the factor is
    [0 / 0]. *)
Lemma zero_range_factor :
  interpolationFactor 200
    [Sample.mk 100 (Vec3.mk 0 0 0) 0; Sample.mk 100 (Vec3.mk 10 0 0) 0]
  = Some Js.NaN.
Proof.
  unfold interpolationFactor, findBracket, INTERPOLATION_DELAY. cbv zeta.
  replace (Js.leb _ _) with true by (symmetry; apply leb_true; simpl; lra).
  replace (Js.geb _ _) with true by (symmetry; apply geb_true; simpl; lra).
  simpl. unfold Js.div.
  destruct (Req_dec_T (100 - 100) 0) as [_|H]; [|exfalso; apply H; lra].
  destruct (Req_dec_T (200 - 100 - 100) 0) as [_|H]; [|exfalso; apply H; lra].
  reflexivity.
Qed.

(** * Further properties of the server *)

(** ** Who is in the state *)

Lemma carStep_dom deltaTime carId st :
  dom (State.players (carStep deltaTime carId st)) = dom (State.players st)
  ∧ dom (State.cars (carStep deltaTime carId st)) = dom (State.cars st)
  ∧ State.room (carStep deltaTime carId st) = State.room st.
Proof.
  unfold carStep.
  destruct (State.cars st !! carId) as [car|] eqn:Hcar; [|done].
  destruct (negb _); [done|].
  destruct (State.players st !! Js.key (Car.dId car)) as [driver|] eqn:Hdrv;
    simpl.
  - by rewrite !dom_insert_lookup_L by eauto.
  - by rewrite dom_insert_lookup_L by eauto.
Qed.

Lemma carSteps_dom deltaTime l st :
  let st' := foldl (fun acc carId => carStep deltaTime carId acc) st l in
  dom (State.players st') = dom (State.players st)
  ∧ dom (State.cars st') = dom (State.cars st)
  ∧ State.room st' = State.room st.
Proof.
  revert st. induction l as [|carId l IH]; intros st; simpl; [done|].
  destruct (IH (carStep deltaTime carId st)) as (-> & -> & ->).
  apply carStep_dom.
Qed.

Lemma simulatePhysics_dom deltaTime st :
  dom (State.players (simulatePhysics deltaTime st)) = dom (State.players st)
  ∧ dom (State.cars (simulatePhysics deltaTime st)) = dom (State.cars st)
  ∧ State.room (simulatePhysics deltaTime st) = State.room st.
Proof.
  unfold simulatePhysics, carPhase.
  destruct (carSteps_dom deltaTime
              (elements (dom (State.cars (playerPhase deltaTime st))))
              (playerPhase deltaTime st)) as (-> & -> & ->).
  unfold playerPhase. simpl. by rewrite dom_fmap_L.
Qed.

Lemma handle_dom_cars ev st :
  dom (State.cars (handle ev st)) = dom (State.cars st).
Proof.
  destruct ev as [id rx rz|id input|id action|id|deltaTime]; simpl.
  - done.
  - unfold clientInput. by destruct (State.players st !! id).
  - unfold clientAction. destruct (State.players st !! id) as [pl|]; [|done].
    destruct action as [carId| | |]; simpl; try done.
    + unfold enterVehicle.
      destruct (State.cars st !! carId) as [car|] eqn:Hcar; [|done].
      destruct (negb _); [|done]. simpl.
      by rewrite dom_insert_lookup_L by eauto.
    + unfold exitVehicle.
      destruct (State.cars st !! _) as [car|] eqn:Hcar; [|done].
      destruct (is_driver id car); [|done]. simpl.
      by rewrite dom_insert_lookup_L by eauto.
  - unfold disconnect. simpl.
    destruct (State.players st !! id) as [pl|]; [|done].
    destruct (Player.d pl); [|done].
    destruct (State.cars st !! _) as [car|] eqn:Hcar; [|done].
    by rewrite dom_insert_lookup_L by eauto.
  - apply simulatePhysics_dom.
Qed.

Lemma run_snoc evs ev st : run (evs ++ [ev]) st = handle ev (run evs st).
Proof. unfold run. by rewrite foldl_app. Qed.

Lemma run_app evs1 evs2 st : run (evs1 ++ evs2) st = run evs2 (run evs1 st).
Proof. unfold run. by rewrite foldl_app. Qed.

(** X1. No event adds or removes a car: after any sequence of connections,
    inputs, actions, disconnections and ticks the car table has the keys it
    had. *)
Theorem cars_never_created_or_destroyed evs st :
  dom (State.cars (run evs st)) = dom (State.cars st).
Proof.
  induction evs as [|ev evs IH] using rev_ind; [done|].
  by rewrite run_snoc, handle_dom_cars.
Qed.

(** X2. A tick neither adds nor removes a player, a car or a room member. *)
Theorem tick_keeps_population deltaTime st :
  dom (State.players (simulatePhysics deltaTime st)) = dom (State.players st)
  ∧ dom (State.cars (simulatePhysics deltaTime st)) = dom (State.cars st)
  ∧ State.room (simulatePhysics deltaTime st) = State.room st.
Proof. apply simulatePhysics_dom. Qed.

Lemma reachable_cars st : reachable st → dom (State.cars st) = {[ "car1" ]}.
Proof.
  induction 1 as [|st ev _ IH _].
  - unfold initialState. simpl. apply dom_singleton_L.
  - by rewrite handle_dom_cars.
Qed.

Lemma handle_room ev st :
  State.room st = dom (State.players st) →
  State.room (handle ev st) = dom (State.players (handle ev st)).
Proof.
  intros Hroom.
  destruct ev as [id rx rz|id input|id action|id|deltaTime]; simpl.
  - unfold connection. simpl. by rewrite dom_insert_L, Hroom.
  - unfold clientInput. destruct (State.players st !! id) as [pl|] eqn:Hpl;
      [|done]. simpl. by rewrite dom_insert_lookup_L by eauto.
  - unfold clientAction. destruct (State.players st !! id) as [pl|] eqn:Hpl;
      [|done].
    destruct action as [carId| | |]; simpl; try done.
    + unfold enterVehicle. destruct (State.cars st !! carId) as [car|]; [|done].
      destruct (negb _); [|done]. simpl.
      by rewrite dom_insert_lookup_L by eauto.
    + unfold exitVehicle. destruct (State.cars st !! _) as [car|]; [|done].
      destruct (is_driver id car); [|done]. simpl.
      by rewrite dom_insert_lookup_L by eauto.
  - unfold disconnect. simpl. by rewrite dom_delete_L, Hroom.
  - destruct (simulatePhysics_dom deltaTime st) as (-> & _ & ->). done.
Qed.

(** X3. The member set of the room is the set of connected players, in
    every state the server reaches. *)
Theorem room_is_players st :
  reachable st → State.room st = dom (State.players st).
Proof.
  induction 1 as [|st ev _ IH _].
  - unfold initialState. simpl. by rewrite dom_empty_L.
  - by apply handle_room.
Qed.

(** The room of the scenario holds [p1] and [p2]. *)
Lemma room_is_players_witness :
  State.room raceState = dom (State.players raceState).
Proof. apply (room_is_players raceState raceState_reachable). Defined.

(** ** Cars *)

Lemma driveCar_in_bounds deltaTime input car :
  car_in_bounds (driveCar deltaTime input car).
Proof.
  unfold car_in_bounds, driveCar, MAX_CAR_SPEED. simpl. split; [|done].
  unfold Rmin, Rmax.
  repeat match goal with |- context [Rle_dec ?a ?b] => destruct (Rle_dec a b) end;
    lra.
Qed.

Lemma carStep_in_bounds deltaTime carId st :
  (∀ k car, State.cars st !! k = Some car → car_in_bounds car) →
  ∀ k car, State.cars (carStep deltaTime carId st) !! k = Some car →
           car_in_bounds car.
Proof.
  intros Hall k car'. unfold carStep.
  destruct (State.cars st !! carId) as [car|] eqn:Hcar; [|apply Hall].
  destruct (negb _); [apply Hall|].
  destruct (State.players st !! Js.key (Car.dId car)) as [driver|]; simpl;
    rewrite lookup_insert; case_decide; try apply Hall.
  - intros [= <-]. apply driveCar_in_bounds.
  - intros [= <-]. exact (Hall _ _ Hcar).
Qed.

Lemma handle_in_bounds ev st :
  (∀ k car, State.cars st !! k = Some car → car_in_bounds car) →
  ∀ k car, State.cars (handle ev st) !! k = Some car → car_in_bounds car.
Proof.
  intros Hall.
  destruct ev as [id rx rz|id input|id action|id|deltaTime]; simpl.
  - apply Hall.
  - unfold clientInput. destruct (State.players st !! id); apply Hall.
  - unfold clientAction. destruct (State.players st !! id) as [pl|]; [|apply Hall].
    destruct action as [carId| | |]; simpl; try apply Hall.
    + unfold enterVehicle.
      destruct (State.cars st !! carId) as [car|] eqn:Hcar; [|apply Hall].
      destruct (negb _); [|apply Hall]. simpl. intros k car'.
      rewrite lookup_insert. case_decide; [|apply Hall].
      intros [= <-]. exact (Hall _ _ Hcar).
    + unfold exitVehicle.
      destruct (State.cars st !! _) as [car|] eqn:Hcar; [|apply Hall].
      destruct (is_driver id car); [|apply Hall]. simpl. intros k car'.
      rewrite lookup_insert. case_decide; [|apply Hall].
      intros [= <-]. exact (Hall _ _ Hcar).
  - unfold disconnect. simpl.
    destruct (State.players st !! id) as [pl|]; [|apply Hall].
    destruct (Player.d pl); [|apply Hall].
    destruct (State.cars st !! _) as [car|] eqn:Hcar; [|apply Hall].
    intros k car'. rewrite lookup_insert. case_decide; [|apply Hall].
    intros [= <-]. exact (Hall _ _ Hcar).
  - unfold simulatePhysics, carPhase.
    generalize (elements (dom (State.cars (playerPhase deltaTime st)))).
    intros l.
    assert (Hp : ∀ k car, State.cars (playerPhase deltaTime st) !! k = Some car
                          → car_in_bounds car) by apply Hall.
    revert Hp. generalize (playerPhase deltaTime st). clear.
    induction l as [|carId l IH]; intros st Hall; simpl; [done|].
    by apply IH, carStep_in_bounds.
Qed.

(** X4. In every state the server reaches, every car's speed is within
    [-MAX_CAR_SPEED, MAX_CAR_SPEED] and the car is at height 0.75. *)
Theorem car_speed_within_cap st carId car :
  reachable st → State.cars st !! carId = Some car → car_in_bounds car.
Proof.
  intros Hreach. revert carId car.
  induction Hreach as [|st ev _ IH _].
  - intros carId car. unfold initialState. simpl.
    intros [_ <-]%lookup_singleton_Some.
    unfold car_in_bounds, car1, MAX_CAR_SPEED. simpl. lra.
  - by apply handle_in_bounds.
Qed.

(** [car1] with [p1] at the wheel. *)
Lemma car_speed_within_cap_witness :
  car_in_bounds (Car.set_dId (Some "p1") car1).
Proof.
  apply (car_speed_within_cap raceState "car1" _ raceState_reachable).
  reflexivity.
Defined.

Lemma drivingState_reachable : reachable drivingState.
Proof.
  apply (reach_step
           (run [Connect "p1" 0.5 0.5; ClientAction "p1" (EnterVehicle "car1")]
                initialState)
           (ClientInput "p1" walkCommand)); [|exact I].
  apply (reach_step (run [Connect "p1" 0.5 0.5] initialState)
                    (ClientAction "p1" (EnterVehicle "car1"))); [|exact I].
  apply (reach_step initialState (Connect "p1" 0.5 0.5));
    [|split; [discriminate|reflexivity]].
  apply reach_init.
Defined.

(** What a tick does for a driver and the car, in a reachable state. *)
Lemma simulatePhysics_driver deltaTime st id player :
  reachable st → State.players st !! id = Some player →
  Player.d player = true →
  ∃ car,
    Player.vId player = Some "car1"
    ∧ State.cars st !! "car1" = Some car
    ∧ Car.dId car = Some id
    ∧ State.players (simulatePhysics deltaTime st) !! id
      = Some (Player.set_pInputs (tail (Player.pInputs player)) player)
    ∧ State.cars (simulatePhysics deltaTime st) !! "car1"
      = Some (driveCar deltaTime
                (default Input.neutral (head (Player.pInputs player))) car).
Proof.
  intros Hreach Hpl Hd.
  pose proof (reachable_inv _ Hreach) as HI.
  pose proof (seats_lookup _ _ _ Hpl) as HP. unfold occ in HP. rewrite Hd in HP.
  destruct (inv_seat _ _ HI _ _ HP) as (carId & Hv & HC).
  pose proof (inv_single _ _ HI _ _ HC) as ->.
  unfold drivers in HC. rewrite lookup_fmap in HC.
  destruct (State.cars st !! "car1") as [car|] eqn:Hcar; [|done].
  injection HC as HdId. exists car.
  assert (Hne : id ≠ "").
  { intros ->. pose proof (inv_noempty _ _ HI) as Hn. unfold seats in Hn.
    by rewrite lookup_fmap, Hpl in Hn. }
  apply String.eqb_neq in Hne.
  assert (Hsim : simulatePhysics deltaTime st
                 = carStep deltaTime "car1" (playerPhase deltaTime st)).
  { unfold simulatePhysics, carPhase.
    change (State.cars (playerPhase deltaTime st)) with (State.cars st).
    by rewrite (reachable_cars st Hreach), elements_singleton. }
  rewrite Hsim. unfold carStep.
  change (State.cars (playerPhase deltaTime st)) with (State.cars st).
  rewrite Hcar, HdId. simpl. rewrite Hne. simpl.
  rewrite lookup_fmap, Hpl. simpl.
  unfold playerTick. rewrite Hd. simpl.
  by rewrite !lookup_insert_eq.
Qed.



(** ** The sanity check as a speed limit *)

Lemma stride_zero lastP y :
  stride lastP (Vec3.mk (LastP.x lastP) y (LastP.z lastP)) = 0.
Proof.
  unfold stride. simpl.
  replace ((LastP.x lastP - LastP.x lastP) * (LastP.x lastP - LastP.x lastP)
           + (LastP.z lastP - LastP.z lastP) * (LastP.z lastP - LastP.z lastP))
    with 0 by ring.
  apply sqrt_0.
Qed.

Lemma antiTeleport_false_stride deltaTime lastP p :
  0 <= deltaTime → antiTeleport deltaTime lastP p = false →
  stride lastP p <= MAX_PLAYER_SPEED * 2 * deltaTime.
Proof.
  intros Hdt Hchk. unfold antiTeleport in Hchk. cbv zeta in Hchk.
  fold (stride lastP p) in Hchk.
  destruct (Req_dec_T deltaTime 0) as [->|Hne].
  - unfold Js.div in Hchk. destruct (Req_dec_T 0 0) as [_|H0]; [|done].
    destruct (Req_dec_T (stride lastP p) 0) as [->|Hs]; [lra|].
    destruct (Rlt_dec 0 (stride lastP p)) as [Hpos|Hneg]; [done|].
    pose proof (sqrt_pos
      ((Vec3.x p - LastP.x lastP) * (Vec3.x p - LastP.x lastP)
       + (Vec3.z p - LastP.z lastP) * (Vec3.z p - LastP.z lastP))) as Hge.
    fold (stride lastP p) in Hge. lra.
  - rewrite gtb_div_pos in Hchk by lra. by apply gtb_false in Hchk.
Qed.

(** X6. Whatever the input and the player, for a non-negative [deltaTime]
    one run of the loop body leaves the player at most
    [2 * MAX_PLAYER_SPEED * deltaTime] away, horizontally, from the position
    accepted before it. *)
Theorem step_within_speed_limit deltaTime input player :
  0 <= deltaTime →
  stride (Player.lastP player) (Player.p (applyInput deltaTime input player))
  <= MAX_PLAYER_SPEED * 2 * deltaTime.
Proof.
  intros Hdt. unfold applyInput. cbv zeta.
  destruct (antiTeleport deltaTime (Player.lastP player)
              (movePlayer deltaTime input player)) eqn:Hchk.
  - cbn [Player.p]. rewrite stride_zero. unfold MAX_PLAYER_SPEED. lra.
  - cbn [Player.p]. by apply antiTeleport_false_stride.
Qed.

(** The stranded player, a hundred units from the last accepted position,
    ends within 21 units of it. *)
Lemma step_within_speed_limit_witness :
  stride (Player.lastP strandedPlayer)
         (Player.p (applyInput 1 Input.neutral strandedPlayer))
  <= MAX_PLAYER_SPEED * 2 * 1.
Proof.
  apply (step_within_speed_limit 1 Input.neutral strandedPlayer). lra.
Defined.

Lemma rotated_step_bound mx mz s c deltaTime x z :
  s * s + c * c = 1 → mx * mx <= 441 → mz * mz <= 441 →
  ((x + (mx * c - mz * s) * deltaTime * 0.1) - x)
  * ((x + (mx * c - mz * s) * deltaTime * 0.1) - x)
  + ((z + (mx * s + mz * c) * deltaTime * 0.1) - z)
    * ((z + (mx * s + mz * c) * deltaTime * 0.1) - z)
  <= (10.5 * 2 * deltaTime) * (10.5 * 2 * deltaTime).
Proof.
  intros Hsc Hx Hz.
  replace (((x + (mx * c - mz * s) * deltaTime * 0.1) - x)
           * ((x + (mx * c - mz * s) * deltaTime * 0.1) - x)
           + ((z + (mx * s + mz * c) * deltaTime * 0.1) - z)
             * ((z + (mx * s + mz * c) * deltaTime * 0.1) - z))
    with ((mx * mx + mz * mz) * (s * s + c * c)
          * ((deltaTime * 0.1) * (deltaTime * 0.1))) by ring.
  rewrite Hsc. nra.
Qed.

(** A movement from the accepted position passes the check. *)
Lemma antiTeleport_synced deltaTime input player :
  synced player → 0 < deltaTime →
  antiTeleport deltaTime (Player.lastP player)
               (movePlayer deltaTime input player) = false.
Proof.
  intros [Hx Hz] Hdt. apply antiTeleport_slow; [done|].
  rewrite Hx, Hz. unfold movePlayer, MAX_PLAYER_SPEED. cbn [Vec3.x Vec3.z].
  apply rotated_step_bound.
  - pose proof (sin2_cos2 (Player.y player)) as H. unfold Rsqr in H. lra.
  - destruct (Input.shift input), (Input.left input), (Input.right input); nra.
  - destruct (Input.shift input), (Input.forward input),
      (Input.backward input); nra.
Qed.

Lemma applyInput_synced deltaTime input player :
  synced player → 0 < deltaTime →
  applyInput deltaTime input player = accepted deltaTime input player.
Proof.
  intros Hs Hdt. unfold applyInput, accepted.
  by rewrite antiTeleport_synced.
Qed.

Lemma accepted_synced deltaTime input player :
  synced (accepted deltaTime input player).
Proof. done. Qed.

Lemma foldl_applyInput_synced deltaTime q player :
  synced player → 0 < deltaTime →
  foldl (fun acc input => applyInput deltaTime input acc) player q
  = foldl (fun acc input => accepted deltaTime input acc) player q
  ∧ synced (foldl (fun acc input => accepted deltaTime input acc) player q).
Proof.
  intros Hs Hdt. revert player Hs.
  induction q as [|input rest IH]; intros player Hs; simpl; [done|].
  rewrite applyInput_synced by done. apply IH, accepted_synced.
Qed.

(** X7. For a player whose [lastP] holds the current position (one who has
    not entered or left a car since the last command) and a positive
    [deltaTime], the sanity check rejects none of the queued commands,
    whatever keys they carry: the loop applies every movement, and [lastP]
    holds the position again at the end. *)
Theorem honest_queue_accepted deltaTime q player :
  synced player → 0 < deltaTime →
  processInputs deltaTime q player
  = Player.set_pInputs []
      (foldl (fun acc input => accepted deltaTime input acc) player q)
  ∧ synced (processInputs deltaTime q player).
Proof.
  intros Hs Hdt.
  destruct (foldl_applyInput_synced deltaTime q player Hs Hdt) as [Heq Hsync].
  rewrite processInputs_foldl, Heq. done.
Qed.

(** The walking player's queue in a tick of 33 ms. *)
Lemma honest_queue_accepted_witness :
  processInputs 0.033 [walkCommand] walkPlayer
  = Player.set_pInputs []
      (foldl (fun acc input => accepted 0.033 input acc) walkPlayer
             [walkCommand])
  ∧ synced (processInputs 0.033 [walkCommand] walkPlayer).
Proof.
  apply (honest_queue_accepted 0.033 [walkCommand] walkPlayer).
  - split; reflexivity.
  - lra.
Defined.

(** ** Entering, leaving, disconnecting *)

Lemma set_dId_restore id car :
  Car.dId car = None → Car.set_dId None (Car.set_dId (Some id) car) = car.
Proof. destruct car. simpl. by intros ->. Qed.

(** X8. A player who enters a free car and leaves it again, with no tick in
    between, leaves the car table exactly as it was and stands two units
    beside the car in x and z, at height 0, not driving. *)
Theorem enter_then_exit st id player carId car :
  State.players st !! id = Some player →
  State.cars st !! carId = Some car → Car.dId car = None →
  (clientAction id ExitVehicle
     (clientAction id (EnterVehicle carId) st).1).1
  = State.mk
      (<[id := Player.set_p (Vec3.mk (Vec3.x (Car.p car) + 2) 0
                                     (Vec3.z (Car.p car) + 2))
                 (Player.set_driving false None player)]>
         (State.players st))
      (State.cars st) (State.room st).
Proof.
  intros Hpl Hcar HdId. unfold clientAction at 2. rewrite Hpl. simpl.
  unfold enterVehicle. rewrite Hcar, HdId. simpl.
  unfold clientAction. simpl. rewrite lookup_insert_eq. simpl.
  unfold exitVehicle. simpl. rewrite lookup_insert_eq.
  unfold is_driver. simpl. rewrite String.eqb_refl. simpl.
  rewrite !insert_insert_eq. f_equal.
  rewrite <- HdId at 1. fold (Car.set_dId (Car.dId car) car).
  apply insert_id. rewrite Hcar. f_equal. by destruct car.
Qed.

(** A freshly connected [p1] enters [car1] and leaves it. *)
Lemma enter_then_exit_witness :
  let st := run [Connect "p1" 0.5 0.5] initialState in
  (State.cars (clientAction "p1" ExitVehicle
                 (clientAction "p1" (EnterVehicle "car1") st).1).1)
  = State.cars st.
Proof.
  intros st.
  rewrite (enter_then_exit st "p1"
             (Player.mk (Vec3.mk (0.5 * 50 - 25) 0 (0.5 * 50 - 25))
                        (LastP.mk (0.5 * 50 - 25) (0.5 * 50 - 25))
                        (Vec3.mk 0 0 0) 0 100 false None [] (Some 0%Z))
             "car1" car1); reflexivity.
Defined.

Lemma exitVehicle_pedestrian st id player :
  arbiter_inv (seats st) (drivers st) →
  State.players st !! id = Some player → Player.d player = false →
  exitVehicle id player st = st.
Proof.
  intros HI Hpl Hd. unfold exitVehicle.
  destruct (State.cars st !! Js.key (Player.vId player)) as [car|] eqn:Hcar;
    [|done].
  destruct (is_driver id car) eqn:Hdrv; [|done].
  apply is_driver_true in Hdrv.
  pose proof (drivers_lookup _ _ _ Hcar) as HC. rewrite Hdrv in HC.
  apply (inv_driver _ _ HI) in HC.
  rewrite (seats_lookup _ _ _ Hpl) in HC. unfold occ in HC. congruence.
Qed.

(** X9. In a reachable state an [exitVehicle] from a player who is not
    driving changes nothing and lets nothing out. *)
Theorem exit_without_car_noop st id player :
  reachable st → State.players st !! id = Some player →
  Player.d player = false →
  clientAction id ExitVehicle st = (st, []).
Proof.
  intros Hreach Hpl Hd. unfold clientAction. rewrite Hpl.
  by rewrite exitVehicle_pedestrian by (done || by apply reachable_inv).
Qed.

(** [p2] of the scenario is on foot. *)
Lemma exit_without_car_noop_witness :
  clientAction "p2" ExitVehicle raceState = (raceState, []).
Proof.
  apply (exit_without_car_noop raceState "p2"
           (Player.mk (Vec3.mk (0.5 * 50 - 25) 0 (0.5 * 50 - 25))
                      (LastP.mk (0.5 * 50 - 25) (0.5 * 50 - 25))
                      (Vec3.mk 0 0 0) 0 100 false None [] (Some 0%Z))
           raceState_reachable); reflexivity.
Defined.



(** X11. Once a socket has disconnected, its inputs and actions change
    nothing and let nothing out, whatever the state was. *)
Theorem departed_socket_ignored st id input action :
  clientInput id input (disconnect id st) = (disconnect id st, [])
  ∧ clientAction id action (disconnect id st) = (disconnect id st, []).
Proof.
  unfold clientInput, clientAction.
  assert (State.players (disconnect id st) !! id = None) as ->
    by (unfold disconnect; simpl; apply lookup_delete_eq).
  done.
Qed.

(** ** Order of arrival *)

Lemma state_eta st :
  State.mk (State.players st) (State.cars st) (State.room st) = st.
Proof. by destruct st. Qed.

Lemma run_inputs id inputs st player :
  State.players st !! id = Some player →
  run (ClientInput id <$> inputs) st
  = State.set_players
      (<[id := Player.set_pInputs (Player.pInputs player ++ inputs) player]>
         (State.players st)) st.
Proof.
  revert st player. induction inputs as [|input rest IH]; intros st player Hpl.
  - simpl. rewrite app_nil_r, set_pInputs_same, insert_id by done.
    unfold State.set_players. by rewrite state_eta.
  - change (run (ClientInput id <$> input :: rest) st)
      with (run (ClientInput id <$> rest) (clientInput id input st).1).
    rewrite (clientInput_queued st id player input Hpl).
    rewrite (IH _ (Player.set_pInputs (Player.pInputs player ++ [input]) player))
      by (simpl; apply lookup_insert_eq).
    unfold State.set_players. simpl.
    by rewrite insert_insert_eq, <- app_assoc.
Qed.

Lemma run_inputs_tick id inputs deltaTime st player :
  State.players st !! id = Some player → Player.d player = false →
  State.players (run ((ClientInput id <$> inputs) ++ [Tick deltaTime]) st) !! id
  = Some (Player.set_pInputs []
            (foldl (fun acc input => applyInput deltaTime input acc) player
                   (Player.pInputs player ++ inputs))).
Proof.
  intros Hpl Hd. rewrite run_snoc, (run_inputs id inputs st player Hpl). simpl.
  rewrite (simulatePhysics_idle_player _ _ id
             (Player.set_pInputs (Player.pInputs player ++ inputs) player));
    [|simpl; apply lookup_insert_eq|done].
  simpl. by rewrite foldl_applyInput_set_pInputs.
Qed.

(** X12. The commands a non-driving player sends before a tick are applied
    by that tick in their order of arrival, after those already queued. *)
Theorem inputs_applied_in_arrival_order id inputs deltaTime st player :
  State.players st !! id = Some player → Player.d player = false →
  State.players (run ((ClientInput id <$> inputs) ++ [Tick deltaTime]) st) !! id
  = Some (Player.set_pInputs []
            (foldl (fun acc input => applyInput deltaTime input acc) player
                   (Player.pInputs player ++ inputs))).
Proof. apply run_inputs_tick. Qed.

(** Two more commands for the walking player, then a tick. *)
Lemma inputs_applied_in_arrival_order_witness :
  State.players
    (run ((ClientInput "p1" <$> [driftCommand 2; driftCommand 3])
          ++ [Tick 0.033]) walkState) !! "p1"
  = Some (Player.set_pInputs []
            (foldl (fun acc input => applyInput 0.033 input acc) walkPlayer
                   (Player.pInputs walkPlayer
                    ++ [driftCommand 2; driftCommand 3]))).
Proof.
  apply (inputs_applied_in_arrival_order "p1"
           [driftCommand 2; driftCommand 3] 0.033 walkState walkPlayer);
    reflexivity.
Defined.

Lemma d_foldl_applyInput deltaTime q player :
  Player.d (foldl (fun acc input => applyInput deltaTime input acc) player q)
  = Player.d player.
Proof.
  revert player. induction q as [|input rest IH]; intros player; simpl.
  - done.
  - by rewrite IH.
Qed.

(** X13. For a non-driving player, ticks of equal [deltaTime] can be merged:
    commands, a tick, more commands and a tick leave the player as all the
    commands followed by one tick do.  The player's movement depends on the
    number of commands and not on the number of ticks. *)
Theorem ticks_merge_for_walkers id q1 q2 deltaTime st player :
  State.players st !! id = Some player → Player.d player = false →
  State.players
    (run ((ClientInput id <$> q1) ++ [Tick deltaTime]
          ++ (ClientInput id <$> q2) ++ [Tick deltaTime]) st) !! id
  = State.players
      (run ((ClientInput id <$> (q1 ++ q2)) ++ [Tick deltaTime]) st) !! id.
Proof.
  intros Hpl Hd.
  rewrite (app_assoc _ [Tick deltaTime]), run_app.
  pose proof (run_inputs_tick id q1 deltaTime st player Hpl Hd) as H1.
  rewrite (run_inputs_tick id q2 deltaTime _ _ H1)
    by (simpl; by rewrite d_foldl_applyInput).
  rewrite (run_inputs_tick id (q1 ++ q2) deltaTime st player Hpl Hd).
  simpl. rewrite foldl_applyInput_set_pInputs. simpl.
  by rewrite (app_assoc _ q1 q2), (foldl_app _ (_ ++ q1) q2).
Qed.

(** One command before and one after a tick, or both before one tick. *)
Lemma ticks_merge_for_walkers_witness :
  State.players
    (run ((ClientInput "p1" <$> [driftCommand 2]) ++ [Tick 0.033]
          ++ (ClientInput "p1" <$> [driftCommand 3]) ++ [Tick 0.033])
         walkState) !! "p1"
  = State.players
      (run ((ClientInput "p1" <$> ([driftCommand 2] ++ [driftCommand 3]))
            ++ [Tick 0.033]) walkState) !! "p1".
Proof.
  apply (ticks_merge_for_walkers "p1" [driftCommand 2] [driftCommand 3] 0.033
           walkState walkPlayer); reflexivity.
Defined.

(** ** Snapshots *)

(** X14. The snapshot of a [gameLoop] lists exactly the players and the cars
    the server held before the tick, each with the view of its state after
    the tick, and carries the clock reading as timestamp; [lastTick] becomes
    the time of the call. *)
Theorem snapshot_lists_everyone now dateNow srv :
  let srv' := (gameLoop now dateNow srv).1 in
  let snapshot := (gameLoop now dateNow srv).2 in
  dom (Snapshot.players snapshot) = dom (State.players (Server.state srv))
  ∧ dom (Snapshot.cars snapshot) = dom (State.cars (Server.state srv))
  ∧ (∀ id, Snapshot.players snapshot !! id
           = viewPlayer <$> State.players (Server.state srv') !! id)
  ∧ (∀ carId, Snapshot.cars snapshot !! carId
              = viewCar <$> State.cars (Server.state srv') !! carId)
  ∧ Snapshot.timestamp snapshot = dateNow
  ∧ Server.lastTick srv' = now.
Proof.
  intros srv' snapshot. subst srv' snapshot. unfold gameLoop, makeSnapshot.
  simpl. rewrite !dom_fmap_L.
  destruct (simulatePhysics_dom ((now - Server.lastTick srv) / 1000)
              (Server.state srv)) as (-> & -> & _).
  repeat split; try done; intros; apply lookup_fmap.
Qed.

(** ** A stale last accepted position *)

Lemma rotated_step_small mx mz s c deltaTime :
  s * s + c * c = 1 → mx * mx <= 441 → mz * mz <= 441 →
  ((mx * c - mz * s) * deltaTime * 0.1) * ((mx * c - mz * s) * deltaTime * 0.1)
  + ((mx * s + mz * c) * deltaTime * 0.1) * ((mx * s + mz * c) * deltaTime * 0.1)
  <= (3 * deltaTime) * (3 * deltaTime).
Proof.
  intros Hsc Hx Hz.
  replace (((mx * c - mz * s) * deltaTime * 0.1)
           * ((mx * c - mz * s) * deltaTime * 0.1)
           + ((mx * s + mz * c) * deltaTime * 0.1)
             * ((mx * s + mz * c) * deltaTime * 0.1))
    with ((mx * mx + mz * mz) * (s * s + c * c)
          * ((deltaTime * 0.1) * (deltaTime * 0.1))) by ring.
  rewrite Hsc. nra.
Qed.

Lemma sq_lt_neg w k : 0 <= k → w < - k → k * k < w * w.
Proof. intros Hk Hw. nra. Qed.

(** A step [(u, v)] of length at most [m] from a point at distance more than
    [d + m] from the origin ends farther than [d] from it. *)
Lemma step_stays_far a b u v d m :
  0 <= d → 0 <= m → u * u + v * v <= m * m →
  (d + m) * (d + m) < a * a + b * b →
  d * d < (a + u) * (a + u) + (b + v) * (b + v).
Proof.
  intros Hd Hm Hstep Hfar.
  set (D := sqrt (a * a + b * b)).
  set (n := sqrt (u * u + v * v)).
  assert (HD2 : D * D = a * a + b * b) by (apply sqrt_sqrt; nra).
  assert (Hn2 : n * n = u * u + v * v) by (apply sqrt_sqrt; nra).
  assert (HD0 : 0 <= D) by apply sqrt_pos.
  assert (Hn0 : 0 <= n) by apply sqrt_pos.
  assert (Hnm : n <= m) by nra.
  assert (HDfar : d + m < D) by nra.
  assert (Hcs : (a * u + b * v) * (a * u + b * v) <= D * n * (D * n)).
  { pose proof (Rle_0_sqr (a * v - b * u)) as Hsq. unfold Rsqr in Hsq.
    replace (D * n * (D * n)) with ((D * D) * (n * n)) by ring.
    rewrite HD2, Hn2. nra. }
  assert (Hdot : - (D * n) <= a * u + b * v).
  { destruct (Rle_lt_dec (- (D * n)) (a * u + b * v)) as [Hok|Hlt]; [done|].
    exfalso.
    assert (Hk : 0 <= D * n) by (by apply Rmult_le_pos).
    pose proof (sq_lt_neg _ _ Hk Hlt). lra. }
  assert (Hgap : d * d < (D - n) * (D - n)) by nra.
  replace ((a + u) * (a + u) + (b + v) * (b + v))
    with ((a * a + b * b) + 2 * (a * u + b * v) + (u * u + v * v)) by ring.
  rewrite <- HD2, <- Hn2. nra.
Qed.

Lemma stride_sq lastP p :
  stride lastP p * stride lastP p
  = (Vec3.x p - LastP.x lastP) * (Vec3.x p - LastP.x lastP)
    + (Vec3.z p - LastP.z lastP) * (Vec3.z p - LastP.z lastP).
Proof.
  unfold stride. apply sqrt_sqrt.
  apply Rplus_le_le_0_compat; apply Rle_0_sqr.
Qed.

Lemma antiTeleport_stale deltaTime input player :
  0 < deltaTime →
  stride (Player.lastP player) (Player.p player) > 24 * deltaTime →
  antiTeleport deltaTime (Player.lastP player)
               (movePlayer deltaTime input player) = true.
Proof.
  intros Hdt Hfar. apply antiTeleport_fast; [done|].
  pose proof (stride_sq (Player.lastP player) (Player.p player)) as Hsq.
  pose proof (sqrt_pos
    ((Vec3.x (Player.p player) - LastP.x (Player.lastP player))
     * (Vec3.x (Player.p player) - LastP.x (Player.lastP player))
     + (Vec3.z (Player.p player) - LastP.z (Player.lastP player))
       * (Vec3.z (Player.p player) - LastP.z (Player.lastP player)))) as Hpos.
  fold (stride (Player.lastP player) (Player.p player)) in Hpos.
  unfold movePlayer, MAX_PLAYER_SPEED. cbn [Vec3.x Vec3.z].
  match goal with
  | |- _ < (?px + ?u - ?lx) * _ + (?pz + ?v - ?lz) * _ =>
      replace (px + u - lx) with ((px - lx) + u) by ring;
      replace (pz + v - lz) with ((pz - lz) + v) by ring;
      apply (step_stays_far (px - lx) (pz - lz) u v
               (10.5 * 2 * deltaTime) (3 * deltaTime))
  end.
  - lra.
  - lra.
  - apply rotated_step_small.
    + pose proof (sin2_cos2 (Player.y player)) as H. unfold Rsqr in H. lra.
    + destruct (Input.shift input), (Input.left input), (Input.right input);
        nra.
    + destruct (Input.shift input), (Input.forward input),
        (Input.backward input); nra.
  - rewrite <- Hsq. nra.
Qed.


Lemma strandedPlayer_stride :
  stride (Player.lastP strandedPlayer) (Player.p strandedPlayer) > 24 * 1.
Proof.
  unfold stride, strandedPlayer. simpl.
  replace ((100 - 0) * (100 - 0) + (0 - 0) * (0 - 0)) with (100 * 100) by ring.
  rewrite sqrt_sq_pos; lra.
Qed.


(** * Further properties of the client *)

(** ** The snapshot buffer *)

Lemma shiftWhileOver_drop {A} (n : nat) (l : list A) :
  shiftWhileOver n l = drop (length l - n) l.
Proof.
  induction l as [|x l IH]; [done|].
  cbn [shiftWhileOver]. destruct (n <? length (x :: l))%nat eqn:Hlt.
  - apply Nat.ltb_lt in Hlt. simpl in Hlt. rewrite IH.
    replace (length (x :: l) - n)%nat with (S (length l - n)) by (simpl; lia).
    done.
  - apply Nat.ltb_ge in Hlt.
    replace (length (x :: l) - n)%nat with 0%nat by lia. done.
Qed.

Section ClientFacts.
Variable update : option R → Input.t → Local.t → Local.t.

Lemma handleSnapshot_serverStates snapshot c localPlayer :
  Client.localPlayer c = Some localPlayer →
  Client.serverStates (handleSnapshot update snapshot c)
  = drop (length (Client.serverStates c) + 1 - MAX_STATE_BUFFER)
         (Client.serverStates c ++ [snapshot]).
Proof.
  intros Hlp. unfold handleSnapshot. rewrite Hlp.
  destruct (reconcile update snapshot localPlayer (Client.pendingInputs c)).
  simpl. by rewrite shiftWhileOver_drop, length_app.
Qed.

(** The pending inputs after a snapshot: those before it, or those of them
    the snapshot does not acknowledge. *)
Lemma handleSnapshot_pending snapshot c :
  Client.pendingInputs (handleSnapshot update snapshot c)
  = Client.pendingInputs c
  ∨ Client.pendingInputs (handleSnapshot update snapshot c)
    = unacked (Snapshot.lastProcessedInput snapshot) (Client.pendingInputs c).
Proof.
  unfold handleSnapshot.
  destruct (Client.localPlayer c) as [lp|]; [|by left].
  unfold reconcile. destruct (_ && _); [|by left].
  destruct (Snapshot.players snapshot !! Local.id lp) as [view|]; [|by left].
  destruct (Js.gtb _ _); [|by left].
  rewrite replay_spec. by right.
Qed.

Lemma handleSnapshot_inputSequence snapshot c :
  Client.inputSequence (handleSnapshot update snapshot c)
  = Client.inputSequence c.
Proof.
  unfold handleSnapshot. destruct (Client.localPlayer c) as [lp|]; [|done].
  by destruct (reconcile update snapshot lp (Client.pendingInputs c)).
Qed.

End ClientFacts.

(** X15. With a local player, [handleSnapshot] keeps at most
    [MAX_STATE_BUFFER] snapshots: the newest is the last, the others are the
    most recent of those held before, in their order. *)
Theorem serverStates_bounded
    (update : option R → Input.t → Local.t → Local.t) snapshot c localPlayer :
  Client.localPlayer c = Some localPlayer →
  (length (Client.serverStates (handleSnapshot update snapshot c))
   <= MAX_STATE_BUFFER)%nat
  ∧ last (Client.serverStates (handleSnapshot update snapshot c))
    = Some snapshot
  ∧ Client.serverStates (handleSnapshot update snapshot c)
    `suffix_of` (Client.serverStates c ++ [snapshot]).
Proof.
  intros Hlp. rewrite (handleSnapshot_serverStates update _ _ _ Hlp).
  unfold MAX_STATE_BUFFER. split; [|split].
  - rewrite length_drop, length_app. simpl. lia.
  - rewrite drop_app_le by lia. apply last_snoc.
  - apply suffix_drop.
Qed.

(** The first snapshot of the drifting client. *)
Lemma serverStates_bounded_witness :
  (length (Client.serverStates
             (handleSnapshot stepUpdate ackedSnapshot driftClient))
   <= MAX_STATE_BUFFER)%nat
  ∧ last (Client.serverStates
            (handleSnapshot stepUpdate ackedSnapshot driftClient))
    = Some ackedSnapshot
  ∧ Client.serverStates (handleSnapshot stepUpdate ackedSnapshot driftClient)
    `suffix_of` (Client.serverStates driftClient ++ [ackedSnapshot]).
Proof.
  apply (serverStates_bounded stepUpdate ackedSnapshot driftClient
           (Local.mk "p1" (Vec3.mk 0 0 0) 0 false None (Some 2%Z))).
  reflexivity.
Defined.

(** ** The pending inputs *)

(** X16. [handleSnapshot] never adds to the pending inputs and never
    reorders them: those after it are a sublist of those before. *)
Theorem pending_only_shrinks
    (update : option R → Input.t → Local.t → Local.t) snapshot c :
  Client.pendingInputs (handleSnapshot update snapshot c)
  `sublist_of` Client.pendingInputs c.
Proof.
  destruct (handleSnapshot_pending update snapshot c) as [-> | ->].
  - done.
  - apply sublist_filter.
Qed.

Lemma StronglySorted_filter {A} (rel : A → A → Prop) (P : A → Prop)
    `{!∀ x, Decision (P x)} (l : list A) :
  StronglySorted rel l → StronglySorted rel (filter P l).
Proof.
  induction 1 as [|x l Hl IH Hx]; [constructor|].
  rewrite filter_cons. case_decide; [|done].
  constructor; [done|].
  apply Forall_forall. intros y [_ Hy]%list_elem_of_filter.
  rewrite Forall_forall in Hx. by apply Hx.
Qed.

Lemma Forall_filter_keep {A} (Q P : A → Prop) `{!∀ x, Decision (P x)}
    (l : list A) :
  Forall Q l → Forall Q (filter P l).
Proof.
  rewrite !Forall_forall. intros Hall y [_ Hy]%list_elem_of_filter.
  by apply Hall.
Qed.

(** X17. The pending inputs keep strictly increasing sequence numbers, none
    above the last one given out: [sendInput] and [handleSnapshot] both
    preserve it. *)
Theorem pending_stays_ordered
    (update : option R → Input.t → Local.t → Local.t)
    input deltaTime snapshot c :
  pending_ok c →
  pending_ok (sendInput input deltaTime c).1
  ∧ pending_ok (handleSnapshot update snapshot c).
Proof.
  intros [Hsorted Hbound]. split.
  - unfold sendInput. destruct (negb (Client.connected c)); [done|].
    unfold pending_ok. simpl. split.
    + apply StronglySorted_app_2; [|done|repeat constructor].
      intros x1 x2 Hx1 ->%list_elem_of_singleton.
      rewrite Forall_forall in Hbound.
      destruct (Hbound x1 Hx1) as (s & Hs & Hle).
      exists s, (Client.inputSequence c + 1)%Z. repeat split; [done|lia].
    + apply Forall_app. split.
      * eapply Forall_impl; [exact Hbound|].
        intros x (s & Hs & Hle). exists s. split; [done|lia].
      * constructor; [|constructor]. eexists. split; [done|lia].
  - unfold pending_ok. rewrite handleSnapshot_inputSequence.
    destruct (handleSnapshot_pending update snapshot c) as [-> | ->]; [done|].
    split; [by apply StronglySorted_filter|by apply Forall_filter_keep].
Qed.

Lemma driftClient_pending_ok : pending_ok driftClient.
Proof.
  unfold pending_ok, driftClient. simpl. split.
  - apply SSorted_cons.
    + apply SSorted_cons; [apply SSorted_nil|apply Forall_nil_2].
    + apply Forall_cons_2; [|apply Forall_nil_2].
      exists 1%Z, 2%Z. split; [reflexivity|]. split; [reflexivity|lia].
  - apply Forall_cons_2; [|apply Forall_cons_2; [|apply Forall_nil_2]].
    + exists 1%Z. split; [reflexivity|lia].
    + exists 2%Z. split; [reflexivity|lia].
Defined.

(** The drifting client sends a third input or takes a snapshot. *)
Lemma pending_stays_ordered_witness :
  pending_ok (sendInput (driftCommand 0) 0.016 driftClient).1
  ∧ pending_ok (handleSnapshot stepUpdate ackedSnapshot driftClient).
Proof.
  apply (pending_stays_ordered stepUpdate (driftCommand 0) 0.016 ackedSnapshot
           driftClient driftClient_pending_ok).
Defined.

(** ** Taking the same snapshot twice *)

Lemma unacked_idemp acked pending :
  unacked acked (unacked acked pending) = unacked acked pending.
Proof.
  unfold unacked. induction pending as [|input rest IH]; [done|].
  rewrite filter_cons. case_decide as Hin; [|done].
  rewrite filter_cons. rewrite decide_True by done. by rewrite IH.
Qed.

Section Idempotence.
Variable update : option R → Input.t → Local.t → Local.t.
Hypothesis Hkeep : keeps_identity update.

Lemma applyAll_identity cmds pl :
  Local.id (applyAll update cmds pl) = Local.id pl
  ∧ Local.isDriving (applyAll update cmds pl) = Local.isDriving pl
  ∧ Local.vehicleId (applyAll update cmds pl) = Local.vehicleId pl
  ∧ Local.inputSequence (applyAll update cmds pl) = Local.inputSequence pl.
Proof.
  unfold applyAll. revert pl.
  induction cmds as [|input rest IH]; intros pl; simpl; [done|].
  destruct (IH (update (Input.deltaTime input) input pl)) as (-> & -> & -> & ->).
  apply Hkeep.
Qed.

Lemma snap_applyAll serverPos y cmds pl :
  Local.snap serverPos y (applyAll update cmds (Local.snap serverPos y pl))
  = Local.snap serverPos y pl.
Proof.
  destruct (applyAll_identity cmds (Local.snap serverPos y pl))
    as (Hid & Hdrv & Hveh & Hseq).
  unfold Local.snap at 1. rewrite Hid, Hdrv, Hveh, Hseq. reflexivity.
Qed.

Lemma reconcile_idempotent snapshot localPlayer pending :
  reconcile update snapshot
            (reconcile update snapshot localPlayer pending).1
            (reconcile update snapshot localPlayer pending).2
  = reconcile update snapshot localPlayer pending.
Proof.
  unfold reconcile at 2 3 4.
  destruct (negb (Local.isDriving localPlayer)
            && Js.truthy_num (Local.inputSequence localPlayer)
            && Js.truthy_num (Snapshot.lastProcessedInput snapshot)) eqn:Hguard;
    [|simpl; unfold reconcile; by rewrite Hguard].
  destruct (Snapshot.players snapshot !! Local.id localPlayer) as [view|]
    eqn:Hview; [|simpl; unfold reconcile; by rewrite Hguard, Hview].
  cbv zeta.
  destruct (Js.gtb _ _) eqn:Herr;
    [|simpl; unfold reconcile; rewrite Hguard, Hview; cbv zeta; by rewrite Herr].
  rewrite replay_spec. simpl.
  set (serverPos := Vec3.mk (Vec3.x (PlayerView.p view))
                            (Vec3.y (PlayerView.p view))
                            (Vec3.z (PlayerView.p view))).
  set (acked := Snapshot.lastProcessedInput snapshot).
  set (pl1 := applyAll update (unacked acked pending)
                (Local.snap serverPos (PlayerView.y view) localPlayer)).
  destruct (applyAll_identity (unacked acked pending)
              (Local.snap serverPos (PlayerView.y view) localPlayer))
    as (Hid & Hdrv & _ & Hseq).
  fold pl1 in Hid, Hdrv, Hseq. simpl in Hid, Hdrv, Hseq.
  unfold reconcile. rewrite Hid, Hdrv, Hseq, Hguard, Hview. cbv zeta.
  fold serverPos acked.
  destruct (Js.gtb (distanceTo (Local.position pl1) serverPos) 1.0); [|done].
  rewrite replay_spec, unacked_idemp. unfold pl1 at 1.
  by rewrite snap_applyAll.
Qed.

Lemma handleSnapshot_reconcile snapshot c localPlayer :
  Client.localPlayer c = Some localPlayer →
  Client.localPlayer (handleSnapshot update snapshot c)
  = Some (reconcile update snapshot localPlayer (Client.pendingInputs c)).1
  ∧ Client.pendingInputs (handleSnapshot update snapshot c)
    = (reconcile update snapshot localPlayer (Client.pendingInputs c)).2.
Proof.
  intros Hlp. unfold handleSnapshot. rewrite Hlp.
  by destruct (reconcile update snapshot localPlayer (Client.pendingInputs c)).
Qed.

Lemma handleSnapshot_twice snapshot c :
  Client.localPlayer (handleSnapshot update snapshot
                        (handleSnapshot update snapshot c))
  = Client.localPlayer (handleSnapshot update snapshot c)
  ∧ Client.pendingInputs (handleSnapshot update snapshot
                            (handleSnapshot update snapshot c))
    = Client.pendingInputs (handleSnapshot update snapshot c).
Proof.
  destruct (Client.localPlayer c) as [lp|] eqn:Hlp.
  - destruct (handleSnapshot_reconcile snapshot c lp Hlp) as [H1 H2].
    destruct (handleSnapshot_reconcile snapshot _ _ H1) as [-> ->].
    by rewrite H1, H2, reconcile_idempotent.
  - assert (Hsame : handleSnapshot update snapshot c = c)
      by (unfold handleSnapshot; by rewrite Hlp).
    by rewrite !Hsame.
Qed.

End Idempotence.


Lemma stepUpdate_keeps_identity : keeps_identity stepUpdate.
Proof. intros deltaTime input pl. repeat split. Defined.


(** ** The bracket search *)

Lemma findBracket_cons renderTime a b rest :
  findBracket renderTime (a :: b :: rest)
  = if Js.leb (Sample.timestamp a) renderTime
       && Js.geb (Sample.timestamp b) renderTime
    then Some (a, b) else findBracket renderTime (b :: rest).
Proof. reflexivity. Qed.

Lemma bracket_test renderTime a b :
  Js.leb (Sample.timestamp a) renderTime && Js.geb (Sample.timestamp b) renderTime
  = true
  ↔ Sample.timestamp a <= renderTime <= Sample.timestamp b.
Proof. rewrite andb_true_iff, leb_true, geb_true. tauto. Qed.

(** X19. The pair the bracket search returns is the first bracketing pair
    of the buffer: two neighbours with the render time between their
    timestamps, and no pair of neighbours before them brackets the render
    time. *)
Theorem bracket_is_first renderTime positionBuffer p1 p2 :
  findBracket renderTime positionBuffer = Some (p1, p2) →
  ∃ i : nat,
    positionBuffer !! i = Some p1 ∧ positionBuffer !! S i = Some p2
    ∧ Sample.timestamp p1 <= renderTime <= Sample.timestamp p2
    ∧ ∀ (j : nat) a b,
        (j < i)%nat → positionBuffer !! j = Some a →
        positionBuffer !! S j = Some b →
        ¬ (Sample.timestamp a <= renderTime <= Sample.timestamp b).
Proof.
  induction positionBuffer as [|a buf IH]; [done|].
  destruct buf as [|b rest]; [done|].
  rewrite findBracket_cons.
  destruct (Js.leb _ _ && Js.geb _ _) eqn:Htest.
  - intros [= <- <-]. apply bracket_test in Htest.
    exists 0%nat. repeat split; try done; try tauto. intros j ? ? Hj. lia.
  - intros Hfind. destruct (IH Hfind) as (i & Hi1 & Hi2 & Ht & Hfirst).
    exists (S i). repeat split; try done; try tauto.
    intros [|j] a' b' Hj Ha Hb.
    + simpl in Ha, Hb. injection Ha as <-. injection Hb as <-.
      intros Hbr. apply bracket_test in Hbr. congruence.
    + apply (Hfirst j a' b'); [lia|done|done].
Qed.

(** The two samples, render time 50. *)
Lemma bracket_is_first_witness :
  ∃ i : nat,
    sampleBuffer !! i = Some (Sample.mk 0 (Vec3.mk 0 0 0) 0)
    ∧ sampleBuffer !! S i = Some (Sample.mk 100 (Vec3.mk 10 0 4) 1)
    ∧ Sample.timestamp (Sample.mk 0 (Vec3.mk 0 0 0) 0)
      <= 150 - INTERPOLATION_DELAY
      <= Sample.timestamp (Sample.mk 100 (Vec3.mk 10 0 4) 1)
    ∧ ∀ (j : nat) a b,
        (j < i)%nat → sampleBuffer !! j = Some a →
        sampleBuffer !! S j = Some b →
        ¬ (Sample.timestamp a <= 150 - INTERPOLATION_DELAY
           <= Sample.timestamp b).
Proof.
  apply (bracket_is_first (150 - INTERPOLATION_DELAY) sampleBuffer).
  apply sampleBuffer_bracket.
Defined.

(** Whatever the order of the timestamps, a render time between the first
    and the last of at least two samples has a bracketing pair. *)
Lemma findBracket_within renderTime positionBuffer :
  within_span renderTime positionBuffer →
  is_Some (findBracket renderTime positionBuffer).
Proof.
  intros (first & lst & Hhead & Hlast & Hlen & Hlo & Hhi).
  revert first Hhead Hlo Hlen.
  induction positionBuffer as [|a buf IH]; intros first Hhead Hlo Hlen;
    [done|].
  destruct buf as [|b rest]; [simpl in Hlen; lia|].
  simpl in Hhead. injection Hhead as <-.
  rewrite findBracket_cons.
  destruct (Js.leb _ _ && Js.geb _ _) eqn:Htest; [by eexists|].
  assert (Hb : Sample.timestamp b < renderTime).
  { apply Rnot_le_lt. intros Hge. apply not_true_iff_false in Htest.
    apply Htest, bracket_test. lra. }
  destruct rest as [|c rest'].
  - simpl in Hlast. injection Hlast as <-. lra.
  - apply (IH Hlast b); [done|lra|simpl; lia].
Qed.

Lemma increasing_tail a buf : increasing (a :: buf) → increasing buf.
Proof. intros Hinc i s1 s2 H1 H2. by apply (Hinc (S i) s1 s2). Qed.

Lemma increasing_head_le a buf i s :
  increasing (a :: buf) → (a :: buf) !! i = Some s →
  Sample.timestamp a <= Sample.timestamp s.
Proof.
  revert a buf s. induction i as [|i IH]; intros a buf s Hinc Hs.
  - simpl in Hs. injection Hs as <-. lra.
  - destruct buf as [|b rest]; [done|].
    pose proof (Hinc 0%nat a b eq_refl eq_refl) as Hab.
    pose proof (IH b rest s (increasing_tail _ _ Hinc) Hs). lra.
Qed.

Lemma increasing_le_last buf i s lst :
  increasing buf → buf !! i = Some s → last buf = Some lst →
  Sample.timestamp s <= Sample.timestamp lst.
Proof.
  revert i. induction buf as [|a buf IH]; intros i Hinc Hs Hlast; [done|].
  destruct i as [|i].
  - simpl in Hs. injection Hs as <-.
    rewrite last_lookup in Hlast. by eapply increasing_head_le.
  - destruct buf as [|b rest]; [done|].
    apply (IH i); [by eapply increasing_tail|done|done].
Qed.

(** X20. For a buffer with strictly increasing timestamps, the bracket
    search finds a pair exactly when the buffer holds at least two samples
    and the render time lies between the timestamps of the first and the
    last; otherwise [updateMesh] gets the fallback factor 0. *)
Theorem bracket_iff_within_span time positionBuffer :
  increasing positionBuffer →
  (is_Some (findBracket (time - INTERPOLATION_DELAY) positionBuffer)
   ↔ within_span (time - INTERPOLATION_DELAY) positionBuffer)
  ∧ (¬ within_span (time - INTERPOLATION_DELAY) positionBuffer →
     positionBuffer ≠ [] →
     interpolationFactor time positionBuffer = Some (Js.Finite 0)).
Proof.
  intros Hinc.
  assert (Hiff : is_Some (findBracket (time - INTERPOLATION_DELAY) positionBuffer)
                 ↔ within_span (time - INTERPOLATION_DELAY) positionBuffer).
  { split; [|apply findBracket_within].
    intros [[p1 p2] Hfind].
    destruct (findBracket_Some _ _ _ _ Hfind) as (i & Hi1 & Hi2 & Ht).
    destruct positionBuffer as [|a buf]; [done|].
    assert (is_Some (last (a :: buf))) as [lst Hlast]
      by (by apply last_is_Some).
    exists a, lst. split; [done|]. split; [done|]. split.
    - apply lookup_lt_Some in Hi2. simpl in *. lia.
    - pose proof (increasing_head_le _ _ _ _ Hinc Hi1).
      pose proof (increasing_le_last _ _ _ _ Hinc Hi2 Hlast). lra. }
  split; [done|].
  intros Hout Hne. unfold interpolationFactor. cbv zeta.
  destruct (findBracket (time - INTERPOLATION_DELAY) positionBuffer)
    as [pair|] eqn:Hfind.
  - exfalso. apply Hout, Hiff. by eexists.
  - by destruct positionBuffer.
Qed.

(** The two samples, before, within and after their span. *)
Lemma bracket_iff_within_span_witness :
  (is_Some (findBracket (150 - INTERPOLATION_DELAY) sampleBuffer)
   ↔ within_span (150 - INTERPOLATION_DELAY) sampleBuffer)
  ∧ (¬ within_span (150 - INTERPOLATION_DELAY) sampleBuffer →
     sampleBuffer ≠ [] →
     interpolationFactor 150 sampleBuffer = Some (Js.Finite 0)).
Proof.
  apply (bracket_iff_within_span 150 sampleBuffer sampleBuffer_increasing).
Defined.

(** * Further properties of the client's car and mission *)

(** ** Vectors *)

Lemma vlength_nonneg v : 0 <= vlength v.
Proof. apply sqrt_pos. Qed.

Lemma vlength_multiplyScalar k v :
  vlength (multiplyScalar k v) = Rabs k * vlength v.
Proof.
  unfold vlength, multiplyScalar. simpl.
  replace (Vec3.x v * k * (Vec3.x v * k) + Vec3.y v * k * (Vec3.y v * k)
           + Vec3.z v * k * (Vec3.z v * k))
    with (Rsqr k * (Vec3.x v * Vec3.x v + Vec3.y v * Vec3.y v
                    + Vec3.z v * Vec3.z v))
    by (unfold Rsqr; ring).
  rewrite sqrt_mult; [|apply Rle_0_sqr|nra].
  by rewrite sqrt_Rsqr_abs.
Qed.

Lemma vlength_setLength l v :
  0 < vlength v → vlength (setLength l v) = Rabs l.
Proof.
  intros Hpos. unfold setLength, normalize.
  rewrite !vlength_multiplyScalar. unfold orOne.
  destruct (Req_dec_T (vlength v) 0) as [Hz|_]; [lra|].
  rewrite (Rabs_right (1 / vlength v)).
  - field. lra.
  - apply Rle_ge. unfold Rdiv. rewrite Rmult_1_l.
    apply Rlt_le, Rinv_0_lt_compat, Hpos.
Qed.

(** ** [update] *)


Lemma Rpower_drag c t : 0 < c < 1 → 0 <= t → 0 < Rpower c t <= 1.
Proof.
  intros [Hc0 Hc1] Ht. unfold Rpower. split; [apply exp_pos|].
  rewrite <- exp_0.
  assert (Hln : ln c < 0) by (rewrite <- ln_1; apply ln_increasing; lra).
  destruct (Req_dec_T (t * ln c) 0) as [->|Hne]; [lra|].
  apply Rlt_le, exp_increasing. nra.
Qed.

Lemma vadd_zero v k d : vadd v (multiplyScalar (0 * k) d) = v.
Proof.
  unfold vadd, multiplyScalar. destruct v as [x y z]. simpl.
  f_equal; ring.
Qed.

(** X22. With no throttle (neither or both of forward and backward held) and
    a non-negative interval, [update] never makes the car faster. *)
Theorem client_car_coasts_down deltaSeconds historyNow endNow car :
  CarInput.forward (CarState.input (ClientCar.state car))
  = CarInput.backward (CarState.input (ClientCar.state car)) →
  0 <= deltaSeconds →
  vlength (CarState.velocity
             (ClientCar.state
                (ClientCar.update deltaSeconds historyNow endNow car)))
  <= vlength (CarState.velocity (ClientCar.state car)).
Proof.
  intros Hkeys Hdt.
  unfold ClientCar.update. cbv zeta. cbn [ClientCar.state CarState.velocity].
  set (v := CarState.velocity (ClientCar.state car)).
  assert (Hthrottle :
    (if CarInput.backward (CarState.input (ClientCar.state car))
     then (if CarInput.forward (CarState.input (ClientCar.state car))
           then 0 + ACCELERATION else 0) - ACCELERATION
     else (if CarInput.forward (CarState.input (ClientCar.state car))
           then 0 + ACCELERATION else 0)) = 0).
  { rewrite Hkeys.
    destruct (CarInput.backward _); unfold ACCELERATION; lra. }
  rewrite Hthrottle, vadd_zero.
  assert (Hdrag : ∀ c, 0 < c < 1 →
            vlength (multiplyScalar (Rpower c (deltaSeconds * 60)) v)
            <= vlength v).
  { intros c Hc. rewrite vlength_multiplyScalar.
    destruct (Rpower_drag c (deltaSeconds * 60) Hc ltac:(lra)) as [Hp0 Hp1].
    rewrite Rabs_right by lra. pose proof (vlength_nonneg v). nra. }
  match goal with
  | |- vlength (if Js.gtb (vlength ?w) _ then _ else _) <= _ =>
      assert (Hw : vlength w <= vlength v); [|set (v1 := w) in *]
  end.
  { destruct (CarInput.handbrake _); apply Hdrag;
      unfold HANDBRAKE_DRAG, DRAG; lra. }
  destruct (Js.gtb (vlength v1) MAX_SPEED) eqn:Hfast; [|done].
  apply gtb_true in Hfast. unfold MAX_SPEED in *.
  rewrite vlength_setLength by lra. rewrite Rabs_right; lra.
Qed.

(** The rolling car after a frame of 16 ms. *)
Lemma client_car_coasts_down_witness :
  vlength (CarState.velocity
             (ClientCar.state (ClientCar.update 0.016 16 16 coastingCar)))
  <= vlength (CarState.velocity (ClientCar.state coastingCar)).
Proof.
  apply (client_car_coasts_down 0.016 16 16 coastingCar); [reflexivity|lra].
Defined.

(** X23. [update] keeps the history of a local car to [MAX_HISTORY] frames:
    the last one is the frame just computed, the others are the most recent
    of those held, in their order. *)
Theorem client_car_history_bounded deltaSeconds historyNow endNow car :
  ClientCar.isLocal car = true →
  let car' := ClientCar.update deltaSeconds historyNow endNow car in
  (length (ClientCar.history car') <= MAX_HISTORY)%nat
  ∧ last (ClientCar.history car')
    = Some (Frame.mk historyNow
                     (CarState.position (ClientCar.state car'))
                     (CarState.rotation (ClientCar.state car'))
                     (CarState.velocity (ClientCar.state car'))
                     (CarState.input (ClientCar.state car')))
  ∧ ∃ frame, ClientCar.history car'
             `suffix_of` (ClientCar.history car ++ [frame]).
Proof.
  intros Hlocal car'. subst car'. unfold ClientCar.update. cbv zeta.
  rewrite Hlocal. cbn [ClientCar.history ClientCar.state CarState.position
                       CarState.rotation CarState.velocity CarState.input].
  rewrite shiftWhileOver_drop, length_app. unfold MAX_HISTORY. simpl length.
  split; [|split].
  - rewrite length_drop, length_app. simpl. lia.
  - rewrite drop_app_le by lia. apply last_snoc.
  - eexists. apply suffix_drop.
Qed.

(** The speeding car's first frame. *)
Lemma client_car_history_bounded_witness :
  let car' := ClientCar.update 0.016 16 16 speedingCar in
  (length (ClientCar.history car') <= MAX_HISTORY)%nat
  ∧ last (ClientCar.history car')
    = Some (Frame.mk 16
                     (CarState.position (ClientCar.state car'))
                     (CarState.rotation (ClientCar.state car'))
                     (CarState.velocity (ClientCar.state car'))
                     (CarState.input (ClientCar.state car')))
  ∧ ∃ frame, ClientCar.history car'
             `suffix_of` (ClientCar.history speedingCar ++ [frame]).
Proof.
  apply (client_car_history_bounded 0.016 16 16 speedingCar). reflexivity.
Defined.

(** ** [setState] and [getState] *)

(** [getState] after [setState] returns the position, rotation and
    velocity that were set, with the car's own input and update time; and
    setting a car to its own [getState] leaves its state as it was and puts
    the mesh where the state is. *)
Lemma setState_getState newState car :
  ClientCar.getState (ClientCar.setState newState car)
  = Frame.mk (ClientCar.lastUpdateTime car) (Frame.position newState)
             (Frame.rotation newState) (Frame.velocity newState)
             (CarState.input (ClientCar.state car))
  ∧ ClientCar.state (ClientCar.setState (ClientCar.getState car) car)
    = ClientCar.state car
  ∧ ClientCar.meshPosition (ClientCar.setState (ClientCar.getState car) car)
    = CarState.position (ClientCar.state car)
  ∧ ClientCar.meshRotationY (ClientCar.setState (ClientCar.getState car) car)
    = CarState.rotation (ClientCar.state car).
Proof.
  split; [done|]. split; [|done].
  unfold ClientCar.setState, ClientCar.getState. simpl.
  by destruct (ClientCar.state car).
Qed.

(** ** The mission *)

Lemma updateMissionLogic_inactive lastTime localPlayer carPosition mission :
  Mission.active mission = false →
  updateMissionLogic lastTime localPlayer carPosition mission
  = Some (mission, []).
Proof.
  intros Hoff. unfold updateMissionLogic.
  destruct localPlayer as [player|]; [|done]. by rewrite Hoff.
Qed.

Lemma missionFrames_inactive frames mission :
  Mission.active mission = false → missionFrames frames mission = (mission, []).
Proof.
  intros Hoff. induction frames as [|[[lastTime lp] cp] rest IH]; [done|].
  simpl. rewrite updateMissionLogic_inactive by done. by rewrite IH.
Qed.

(** One call either sends nothing, or completes the mission: it sends the
    action once, switches the mission off and hides the marker. *)
Lemma updateMissionLogic_cases lastTime localPlayer carPosition mission
    mission' out :
  updateMissionLogic lastTime localPlayer carPosition mission
  = Some (mission', out) →
  (completions out = [] ∧ Mission.active mission' = Mission.active mission)
  ∨ (∃ id, completions out = [SendCompleteMission (Mission.title mission) id]
           ∧ Mission.active mission = true
           ∧ Mission.active mission' = false
           ∧ Mission.markerVisible mission' = false).
Proof.
  unfold updateMissionLogic.
  destruct localPlayer as [player|]; [|intros [= <- <-]; by left].
  destruct (Mission.active mission) eqn:Hactive; simpl;
    [|intros [= <- <-]; by left].
  destruct (if Local.isDriving player then carPosition
            else Some (Local.position player)) as [targetPos|]; [|done].
  destruct (Js.ltb _ 10); intros [= <- <-]; simpl.
  - right. by exists (Local.id player).
  - by left.
Qed.

(** X24. Over any sequence of frames the main loop sends [completeMission]
    at most once; when it has sent it, the mission is off and the marker
    hidden at the end. *)
Theorem mission_completes_once frames mission :
  (length (completions (missionFrames frames mission).2) <= 1)%nat
  ∧ (completions (missionFrames frames mission).2 ≠ [] →
     Mission.active (missionFrames frames mission).1 = false
     ∧ Mission.markerVisible (missionFrames frames mission).1 = false).
Proof.
  revert mission. induction frames as [|[[lastTime lp] cp] rest IH];
    intros mission; [simpl; split; [lia|done]|].
  simpl.
  destruct (updateMissionLogic lastTime lp cp mission) as [[mission' out]|]
    eqn:Hstep; [|apply IH].
  destruct (missionFrames rest mission') as [final outs] eqn:Hrest.
  simpl. unfold completions. rewrite filter_app. fold (completions out).
  fold (completions outs).
  destruct (updateMissionLogic_cases _ _ _ _ _ _ Hstep)
    as [[-> Hsame] | (id & -> & _ & Hoff & Hhidden)].
  - specialize (IH mission'). rewrite Hrest in IH. exact IH.
  - rewrite (missionFrames_inactive rest mission' Hoff) in Hrest.
    injection Hrest as <- <-. simpl. split; [lia|done].
Qed.
